(** * Keystroke biometrics: the capture state machine of [frontend/src/App.jsx]

    The development embeds the keystroke recorder of the React component
    [App] (handlers [handleKeyDown], [handleKeyUp], [handleChange],
    [startSession], [stopSession], [submitData], [resetInternalState]) as
    pure state-passing functions and proves the properties the specification
    states about it.

    Conventions of the embedding.
    - A JavaScript string is a list of UTF-16 code units ([list N]), so that
      [e.key.length] is [length (key e)] also for keys outside ASCII.
    - [Date.now()] is an input: every handler invocation receives the value
      [now] the clock returns during that invocation (each handler path reads
      the clock at most once).  Times are integers ([Z]), milliseconds.
    - React state ([isRecording], [isCompleted], [keystrokeData], [text],
      [view], [username]) and refs ([keyDownTimes], [sessionStartTime]) are
      the fields of one record.  A handler reads the React state of the render
      it was created in; key events are discrete events, so the component is
      re-rendered between two of them and a handler sees the state left by
      the previous one.  Inside one invocation the state variables keep their
      rendered value even after a setter was called (this matters in
      [handleKeyDown], see there); refs are read live.
    - [keyDownTimes.current] is a plain object used as a map from key names
      to press offsets; it is only indexed with keys that are one character
      long or equal to ["Space"], none of which names a property of
      [Object.prototype], so indexing is a lookup in a finite map.
    - The text area carries [disabled={isCompleted}]: the browser delivers
      key events to it only while [isCompleted] is false.  The handlers are
      modelled as total functions of the state all the same.
    - The display-only state ([errorMsg], [lastResponse],
      [verificationMatrix], [trainCount], [targetText]) is read by no
      handler of the recorder and is left out. *)

From Stdlib Require Import ZArith QArith Qabs Qminmax String Ascii Lia.
From stdpp Require Import base gmap list fin_maps pretty sorting.

Open Scope Z_scope.

(** ** JavaScript strings *)

(** A string literal of the source, as its sequence of code units. *)
Definition js (s : string) : list N :=
  N_of_ascii <$> list_ascii_of_string s.

(** [s.startsWith(c)] for a one-character literal [c]. *)
Definition startsWith (s : list N) (c : N) : bool :=
  match s with
  | x :: _ => N.eqb x c
  | [] => false
  end.

(** [String(e.keyCode || 0)]: the decimal numeral of the key code, [0] when
    the event has none. *)
Definition String_of_number (n : N) : list N := js (pretty n).

(** ** Data model *)

(** The fields of a DOM keyboard event the handlers read. *)
Record KeyEvent := mkKeyEvent {
  key : list N;
  keyCode : N;
  metaKey : bool;
  ctrlKey : bool;
  repeat : bool
}.

(** The object literal [keystroke] built in [handleKeyUp]. *)
Record Keystroke := mkKeystroke {
  k_key : list N;
  k_keyCode : list N;
  pressTime : Z;
  releaseTime : Z;
  dwellTime : Z;
  flightTime : Z
}.

Inductive View := home | train | test.

Inductive Endpoint := api_verify | api_sessions.

(** The request [submitData] posts. *)
Record Payload := mkPayload {
  endpoint : Endpoint;
  userId : list N;
  p_text : list N;
  startedAt : Z;
  keystrokes : list Keystroke
}.

Record State := mkState {
  view : View;
  username : list N;
  isRecording : bool;
  isCompleted : bool;
  keystrokeData : list Keystroke;
  text : list N;
  keyDownTimes : gmap (list N) Z;
  sessionStartTime : option Z
}.

#[global] Instance View_eq_dec : EqDecision View.
Proof. solve_decision. Defined.

(** The component as first mounted. *)
Definition initialState : State :=
  mkState home [] false false [] [] ∅ None.

(** ** Handlers *)

(** [!sessionStartTime.current]: [null] and [0] are falsy. *)
Definition falsy_time (o : option Z) : bool :=
  match o with
  | None => true
  | Some t => t =? 0
  end.

(** [Date.now() - sessionStartTime.current]; [null] converts to [0]. *)
Definition offset (s : State) (now : Z) : Z :=
  now - default 0 (sessionStartTime s).

Definition resetInternalState (s : State) : State :=
  mkState (view s) (username s) false false [] [] ∅ None.

Definition startSession (s : State) (now : Z) : State :=
  if falsy_time (sessionStartTime s)
  then mkState (view s) (username s) true false [] [] ∅ (Some now)
  else s.

Definition submitData (s : State) (now : Z) : option Payload :=
  if (length (keystrokeData s) =? 0)%nat then None
  else Some (mkPayload
               (if decide (view s = test) then api_verify else api_sessions)
               (username s) (text s) now (keystrokeData s)).

Definition stopSession (s : State) (now : Z) : State * option Payload :=
  (mkState (view s) (username s) false true (keystrokeData s) (text s)
           (keyDownTimes s) (sessionStartTime s),
   if (0 <? length (keystrokeData s))%nat then submitData s now else None).

(** The filter of [handleKeyDown]:
    [e.key.startsWith("F") && e.key.length > 1 || e.key === "Escape" ||
     e.key === "Tab" || e.metaKey || e.ctrlKey]. *)
Definition suppressed (e : KeyEvent) : bool :=
  (startsWith (key e) 70 && (1 <? length (key e))%nat)
  || bool_decide (key e = js "Escape")
  || bool_decide (key e = js "Tab")
  || metaKey e
  || ctrlKey e.

(** [e.key.length === 1 || e.key === "Space"]. *)
Definition printable (k : list N) : bool :=
  (length k =? 1)%nat || bool_decide (k = js "Space").

(** [!keyDownTimes.current[key]]: a missing entry and the entry [0] are
    both falsy. *)
Definition falsy_entry (o : option Z) : bool :=
  match o with
  | None => true
  | Some t => t =? 0
  end.

Definition set_keystrokeData (s : State) (l : list Keystroke) : State :=
  mkState (view s) (username s) (isRecording s) (isCompleted s) l (text s)
          (keyDownTimes s) (sessionStartTime s).

Definition set_keyDownTimes (s : State) (m : gmap (list N) Z) : State :=
  mkState (view s) (username s) (isRecording s) (isCompleted s)
          (keystrokeData s) (text s) m (sessionStartTime s).

Definition set_text (s : State) (t : list N) : State :=
  mkState (view s) (username s) (isRecording s) (isCompleted s)
          (keystrokeData s) t (keyDownTimes s) (sessionStartTime s).

(** [handleKeyDown].  The guard [if (!isRecording) return] reads the
    [isRecording] of the current render, also right after [startSession]
    has called [setIsRecording(true)]: the key-down that starts a session
    returns there. *)
Definition handleKeyDown (s : State) (e : KeyEvent) (now : Z)
  : State * option Payload :=
  let s1 :=
    if negb (isRecording s) && negb (isCompleted s)
    then startSession s now else s in
  if negb (isRecording s) then (s1, None)
  else if bool_decide (key e = js "Enter") then stopSession s1 now
  else if bool_decide (key e = js "Backspace") then
    (if (0 <? length (keystrokeData s1))%nat
     then set_keystrokeData s1 (removelast (keystrokeData s1))
     else s1, None)
  else if suppressed e then (s1, None)
  else if printable (key e) then
    let timestamp := offset s1 now in
    if repeat e then (s1, None)
    else if falsy_entry (keyDownTimes s1 !! key e)
    then (set_keyDownTimes s1 (<[key e := timestamp]> (keyDownTimes s1)), None)
    else (s1, None)
  else (s1, None).

Definition handleKeyUp (s : State) (e : KeyEvent) (now : Z) : State :=
  if negb (isRecording s) then s
  else if negb (length (key e) =? 1)%nat
          && negb (bool_decide (key e = js "Space")) then s
  else
    let timestamp := offset s now in
    match keyDownTimes s !! key e with
    | Some keyDownTime =>
        let dwell := timestamp - keyDownTime in
        let flight :=
          if (0 <? length (keystrokeData s))%nat
          then keyDownTime
               - default 0 (releaseTime <$> last (keystrokeData s))
          else 0 in
        let keystroke :=
          mkKeystroke
            (if bool_decide (key e = js " ") then js "Space" else key e)
            (String_of_number (keyCode e))
            keyDownTime timestamp dwell flight in
        mkState (view s) (username s) (isRecording s) (isCompleted s)
                (keystrokeData s ++ [keystroke]) (text s)
                (delete (key e) (keyDownTimes s)) (sessionStartTime s)
    | None => s
    end.

Definition handleChange (s : State) (value : list N) : State :=
  if negb (isRecording s) then s else set_text s value.

(** [setView(v)] together with the effect that depends on [view]: entering
    the training or the test view resets the recorder. *)
Definition setView (s : State) (v : View) : State :=
  if decide (v = view s) then s
  else
    let s1 := mkState v (username s) (isRecording s) (isCompleted s)
                      (keystrokeData s) (text s) (keyDownTimes s)
                      (sessionStartTime s) in
    match v with
    | home => s1
    | _ => resetInternalState s1
    end.

Definition setUsername (s : State) (u : list N) : State :=
  mkState (view s) u (isRecording s) (isCompleted s) (keystrokeData s)
          (text s) (keyDownTimes s) (sessionStartTime s).

(** ** The component as a machine driven by user input *)

Inductive Input :=
| KeyDown (e : KeyEvent)
| KeyUp (e : KeyEvent)
| Change (value : list N)
| Reset
| SetView (v : View)
| SetUsername (u : list N).

(** One input, processed at clock value [now]. *)
Definition step (s : State) (i : Z * Input) : State * option Payload :=
  match i with
  | (now, KeyDown e) => handleKeyDown s e now
  | (now, KeyUp e) => (handleKeyUp s e now, None)
  | (_, Change v) => (handleChange s v, None)
  | (_, Reset) => (resetInternalState s, None)
  | (_, SetView v) => (setView s v, None)
  | (_, SetUsername u) => (setUsername s u, None)
  end.

(** A run: the final state and the requests posted on the way. *)
Fixpoint run (s : State) (tr : list (Z * Input)) : State * list Payload :=
  match tr with
  | [] => (s, [])
  | i :: tr' =>
      let '(s1, o) := step s i in
      let '(s2, os) := run s1 tr' in
      (s2, option_list o ++ os)
  end.

Definition final (tr : list (Z * Input)) : State := fst (run initialState tr).

(** The clock values of a trace never decrease. *)
Fixpoint monotone_from (c : Z) (tr : list (Z * Input)) : bool :=
  match tr with
  | [] => true
  | (t, _) :: tr' => (c <=? t) && monotone_from t tr'
  end.

Definition monotone (tr : list (Z * Input)) : bool :=
  match tr with
  | [] => true
  | (t, _) :: tr' => monotone_from t tr'
  end.

(** Inputs that are key events of the text area. *)
Definition is_key_input (i : Input) : bool :=
  match i with
  | KeyDown _ | KeyUp _ | Change _ => true
  | _ => false
  end.

(** ** Properties of a recorded event sequence *)

(** Flight times as the specification defines them: [0] for the first event,
    press offset minus the release offset of the event just before for every
    later one. *)
Definition flights_ok (l : list Keystroke) : Prop :=
  (∀ k, l !! 0%nat = Some k → flightTime k = 0) ∧
  (∀ i p k, l !! i = Some p → l !! S i = Some k →
            flightTime k = pressTime k - releaseTime p).

(** Events in the order of their release times. *)
Definition release_ordered (l : list Keystroke) : Prop :=
  StronglySorted (λ a b, releaseTime a ≤ releaseTime b) l.

(** Every event was released no earlier than pressed, and its dwell time is
    the difference. *)
Definition dwell_ok (k : Keystroke) : Prop :=
  pressTime k ≤ releaseTime k ∧
  dwellTime k = releaseTime k - pressTime k ∧
  0 ≤ dwellTime k.

(** ** Invariants of the reachable states *)

Record Inv (s : State) : Prop := mkInv {
  inv_idle :
    isRecording s = false → isCompleted s = false →
    keyDownTimes s = ∅ ∧ sessionStartTime s = None ∧ keystrokeData s = [];
  inv_excl : isCompleted s = true → isRecording s = false;
  inv_printable :
    ∀ k t, keyDownTimes s !! k = Some t → printable k = true;
  inv_flights : flights_ok (keystrokeData s)
}.

(** The part of the invariant that needs a clock that never runs backwards:
    [c] is the clock value of the last input processed. *)
Record TimedInv (c : Z) (s : State) : Prop := mkTimedInv {
  tinv_pending :
    ∀ k t, keyDownTimes s !! k = Some t → t ≤ offset s c;
  tinv_released :
    ∀ ev, ev ∈ keystrokeData s → releaseTime ev ≤ offset s c;
  tinv_dwell : ∀ ev, ev ∈ keystrokeData s → dwell_ok ev;
  tinv_sorted : release_ordered (keystrokeData s)
}.

(** The event [handleKeyUp] appends when the press of [key e] is pending
    with press time [t]. *)
Definition closeEvent (s : State) (e : KeyEvent) (now : Z) (t : Z)
  : Keystroke :=
  mkKeystroke
    (if bool_decide (key e = js " ") then js "Space" else key e)
    (String_of_number (keyCode e))
    t (offset s now) (offset s now - t)
    (if (0 <? length (keystrokeData s))%nat
     then t - default 0 (releaseTime <$> last (keystrokeData s)) else 0).

(** ** Sample inputs *)

Definition plain (k : string) : KeyEvent :=
  mkKeyEvent (js k) 0 false false false.

(** An auto-repeat key-down. *)
Definition held (k : string) : KeyEvent :=
  mkKeyEvent (js k) 0 false false true.

(** A key-down with the control key held. *)
Definition chord (k : string) : KeyEvent :=
  mkKeyEvent (js k) 0 false true false.

(** A user picks a name and opens the training view: the recorder is Idle. *)
Definition sample_idle : list (Z * Input) :=
  [ (900, SetUsername (js "alice")); (950, SetView train) ].

(** A user picks a name, opens the training view and types: the first
    key-down only starts the session; [a] and [b] overlap. *)
Definition sample_typing : list (Z * Input) :=
  sample_idle ++
  [ (1000, KeyDown (plain "x")); (1040, KeyUp (plain "x"));
    (1100, KeyDown (plain "a")); (1150, KeyDown (plain "b"));
    (1200, KeyUp (plain "a")); (1250, KeyUp (plain "b")) ].

(** ... then holds [c] ... *)
Definition sample_pending : list (Z * Input) :=
  sample_typing ++ [ (1300, KeyDown (plain "c")) ].

(** ... and ends the session with [c] still down. *)
Definition sample_completed : list (Z * Input) :=
  sample_pending ++ [ (1400, KeyDown (plain "Enter")) ].

(** The paths through [handleKeyDown], one constructor per [return]. *)
Inductive keydown_case (s : State) (e : KeyEvent) (now : Z)
  : State * option Payload → Prop :=
| kd_start :
    isRecording s = false → isCompleted s = false →
    keydown_case s e now (startSession s now, None)
| kd_completed :
    isRecording s = false → isCompleted s = true →
    keydown_case s e now (s, None)
| kd_enter :
    isRecording s = true → key e = js "Enter" →
    keydown_case s e now (stopSession s now)
| kd_backspace :
    isRecording s = true → key e ≠ js "Enter" → key e = js "Backspace" →
    keydown_case s e now
      (set_keystrokeData s (removelast (keystrokeData s)), None)
| kd_ignored :
    isRecording s = true → key e ≠ js "Enter" → key e ≠ js "Backspace" →
    suppressed e = true ∨ printable (key e) = false ∨ repeat e = true
    ∨ falsy_entry (keyDownTimes s !! key e) = false →
    keydown_case s e now (s, None)
| kd_press :
    isRecording s = true → key e ≠ js "Enter" → key e ≠ js "Backspace" →
    suppressed e = false → printable (key e) = true → repeat e = false →
    falsy_entry (keyDownTimes s !! key e) = true →
    keydown_case s e now
      (set_keyDownTimes s (<[key e := offset s now]> (keyDownTimes s)), None).

(** * The verification engine behind [POST /api/verify]

    The backend that computes a verification result is not part of the
    frontend sources; the component only posts a session and renders the
    answer ([verificationMatrix.matrix], [verificationMatrix.verified]).
    The engine is therefore modelled from section 4.3 of the specification.
    Timing values are rationals. *)

(** Modelled from the spec: the per-key entry of a Profile,
    [(meanDwellMs, meanFlightMs, occurrenceCount)] (the backend's profile
    type is missing from the sources).  A Profile maps a logical key to its
    entry: [gmap (list N) Feature]. *)
Record Feature := mkFeature {
  meanDwellMs : Q;
  meanFlightMs : Q;
  occurrenceCount : nat
}.

(** Modelled from the spec: an EnrolledUser, an identity with its training
    profiles. *)
Record EnrolledUser := mkEnrolledUser {
  identity : list N;
  trainingProfiles : list (gmap (list N) Feature)
}.

(** Modelled from the spec: one entry [(identity, score, confidencePercent)]
    of [matches]; the score is the normalized distance. *)
Record Match := mkMatch {
  m_identity : list N;
  score : Q;
  confidencePercent : Q
}.

(** Modelled from the spec: the VerificationResult. *)
Record VerificationResult := mkVerificationResult {
  claimedIdentity : list N;
  matches : list Match;
  verified : bool
}.

(** Modelled from the spec: the tunable constants of the engine (mismatch
    penalty per feature, normalization scale, acceptance threshold). *)
Record Config := mkConfig {
  mismatchPenalty : Q;
  D_ref : Q;
  acceptanceThreshold : Q
}.

(** Modelled from the spec: the error of section 7 the engine can signal. *)
Inductive EngineError := EmptyProfile.

(** Modelled from the spec: the sum behind an arithmetic mean (the backend's
    arithmetic is missing from the sources). *)
Definition Qsum (l : list Q) : Q := foldr Qplus 0%Q l.

(** Modelled from the spec: the arithmetic mean of the values of a key. *)
Definition Qmean (l : list Q) : Q :=
  (Qsum l / inject_Z (Z.of_nat (length l)))%Q.

(** Modelled from the spec: step 1 of the algorithm, the reference profile
    of a user: for each key present in at least one training profile, the
    average of [meanDwellMs] and of [meanFlightMs] over the profiles that
    contain the key. *)
Definition referenceProfile (ps : list (gmap (list N) Feature))
  : gmap (list N) (Q * Q) :=
  set_to_map
    (λ k, let fs := omap (λ p : gmap (list N) Feature, p !! k) ps in
          (k, (Qmean (meanDwellMs <$> fs), Qmean (meanFlightMs <$> fs))))
    (⋃ (dom <$> ps) : gset (list N)).

(** Modelled from the spec: the contribution of one key to the Manhattan
    distance: the absolute differences when both profiles have the key, the
    mismatch penalty once per feature dimension (dwell, flight) when only
    one has it. *)
Definition keyDistance (penalty : Q) (a b : option (Q * Q)) : Q :=
  match a, b with
  | Some (d1, f1), Some (d2, f2) => (Qabs (d1 - d2) + Qabs (f1 - f2))%Q
  | None, None => 0%Q
  | _, _ => (penalty + penalty)%Q
  end.

(** Modelled from the spec: step 2, the summed distance over the keys of
    either profile, divided by their number. *)
Definition distance (penalty : Q) (t r : gmap (list N) (Q * Q)) : Q :=
  let K := elements (dom t ∪ dom r) in
  (Qsum ((λ k, keyDistance penalty (t !! k) (r !! k)) <$> K)
   / inject_Z (Z.of_nat (length K)))%Q.

(** Modelled from the spec: step 3,
    [confidence = 100 * max(0, 1 - d / D_ref)]. *)
Definition confidence (cfg : Config) (d : Q) : Q :=
  (100 * Qmax 0 (1 - d / D_ref cfg))%Q.

(** Modelled from the spec: identity string order, the lexicographic order
    on code units, used to break ties. *)
Fixpoint lex_leb (a b : list N) : bool :=
  match a, b with
  | [], _ => true
  | _ :: _, [] => false
  | x :: a', y :: b' => (x <? y)%N || ((x =? y)%N && lex_leb a' b')
  end.

(** Modelled from the spec: step 4, the ranking order: ascending by
    distance, ties broken by identity. *)
Definition rank_leb (a b : Match) : bool :=
  match (score a ?= score b)%Q with
  | Lt => true
  | Eq => lex_leb (m_identity a) (m_identity b)
  | Gt => false
  end.

(** Modelled from the spec: [matches] is sorted by ascending distance. *)
Definition score_le (a b : Match) : Prop := (score a <= score b)%Q.

(** Modelled from the spec: the ranking order as a relation. *)
Definition rank_le (a b : Match) : Prop := rank_leb a b = true.

#[global] Instance rank_le_dec : RelDecision rank_le.
Proof. intros a b. unfold rank_le. apply _. Defined.

(** Modelled from the spec: the candidate entry of one enrolled user. *)
Definition candidate (cfg : Config) (testProfile : gmap (list N) Feature)
    (u : EnrolledUser)
  : Match :=
  let d := distance (mismatchPenalty cfg)
             ((λ f, (meanDwellMs f, meanFlightMs f)) <$> testProfile)
             (referenceProfile (trainingProfiles u)) in
  mkMatch (identity u) d (confidence cfg d).

(** Modelled from the spec: step 5, the decision on the ranked list. *)
Definition decide_verified (cfg : Config) (claimed : list N)
    (ranked : list Match) : bool :=
  match ranked with
  | top :: _ =>
      bool_decide (m_identity top = claimed)
      && Qle_bool (acceptanceThreshold cfg) (confidencePercent top)
  | [] => false
  end.

(** Modelled from the spec: [verify(claimedIdentity, testProfile,
    enrolledUsers)]; an empty test profile fails fast, users without a
    training profile are left out. *)
Definition verify (cfg : Config) (claimed : list N)
    (testProfile : gmap (list N) Feature)
    (enrolledUsers : list EnrolledUser) : EngineError + VerificationResult :=
  if decide (size testProfile = 0%nat) then inl EmptyProfile
  else
    let eligible :=
      filter (λ u, (0 < length (trainingProfiles u))%nat) enrolledUsers in
    let ranked := merge_sort rank_le (candidate cfg testProfile <$> eligible) in
    inr (mkVerificationResult claimed ranked
           (decide_verified cfg claimed ranked)).

(** The scenario of the specification: [alice] enrolled three sessions with
    key [a] at dwell 100 and flight 50, [bob] one with slower timing; the
    test sample has dwell 105 and flight 52. *)
Definition sample_config : Config := mkConfig 100%Q 80%Q 50%Q.

Definition sample_alice : EnrolledUser :=
  mkEnrolledUser (js "alice")
    (replicate 3 {[ js "a" := mkFeature 100%Q 50%Q 4 ]}).

Definition sample_bob : EnrolledUser :=
  mkEnrolledUser (js "bob") [ {[ js "a" := mkFeature 160%Q 90%Q 2 ]} ].

Definition sample_test : gmap (list N) Feature :=
  {[ js "a" := mkFeature 105%Q 52%Q 1 ]}.

(** * More of the component *)

(** The number of key-down events of a trace that are not auto-repeats. *)
Fixpoint presses (tr : list (Z * Input)) : nat :=
  match tr with
  | [] => 0
  | (_, KeyDown e) :: tr' => ((if repeat e then 0 else 1) + presses tr')%nat
  | _ :: tr' => presses tr'
  end.

(** The three states of the recorder, read off its fields as the status
    line of the component does ([!isRecording && !isCompleted], [isRecording],
    [isCompleted]). *)
Inductive Phase := Idle | Recording | Completed.

Definition phase (s : State) : Phase :=
  if isRecording s then Recording
  else if isCompleted s then Completed else Idle.

(** What a clock that never decreases gives for the offsets: [c] is the
    clock value of the last input processed; the session start is not later
    than [c], and the press offsets buffered or recorded are not negative. *)
Record OffsetInv (c : Z) (s : State) : Prop := mkOffsetInv {
  oinv_origin :
    isRecording s = true ∨ isCompleted s = true →
    is_Some (sessionStartTime s);
  oinv_start : ∀ st, sessionStartTime s = Some st → st ≤ c;
  oinv_pending : ∀ k t, keyDownTimes s !! k = Some t → 0 ≤ t;
  oinv_events : ∀ ev, ev ∈ keystrokeData s → 0 ≤ pressTime ev
}.

(** The user types the very first key and a second one within the same
    millisecond, so that the second press is buffered at offset 0. *)
Definition sample_zero_press : list (Z * Input) :=
  sample_idle ++
  [ (1000, KeyDown (plain "x")); (1000, KeyDown (plain "a")) ].

(** ** [renderText]

    [targetText.split("")] and [text.split("")] cut a string into its code
    units, so a character of either is one code unit; [typed[idx] === char]
    compares two of them.  A [<span>] is modelled by its [key], its
    [className] and the character it shows. *)
Record Span := mkSpan {
  span_key : nat;
  className : list N;
  displayChar : N
}.

(** The callback of [chars.map] in [renderText]; code unit 32 is the
    space. *)
Definition renderSpan (typed : list N) (idx : nat) (char : N) : Span :=
  let className0 :=
    if (idx <? length typed)%nat then
      if bool_decide (typed !! idx = Some char)
      then js "correct" else js "incorrect"
    else if (idx =? length typed)%nat then js "cursor"
    else js "" in
  if (char =? 32)%N then
    mkSpan idx
      (if bool_decide (className0 = js "") then js "space-char inactive"
       else className0 ++ js " space-char")
      32%N
  else mkSpan idx className0 char.

Definition renderText (targetText text : list N) : list Span :=
  imap (renderSpan text) targetText.

(** The class names [renderText] gives to a correctly typed, a wrongly
    typed, the next and a not yet reached character. *)
Definition correct_class (c : list N) : Prop :=
  c = js "correct" ∨ c = js "correct space-char".

Definition incorrect_class (c : list N) : Prop :=
  c = js "incorrect" ∨ c = js "incorrect space-char".

Definition cursor_class (c : list N) : Prop :=
  c = js "cursor" ∨ c = js "cursor space-char".

Definition untouched_class (c : list N) : Prop :=
  c = js "" ∨ c = js "space-char inactive".

(** ** Sessions that show what the recorder does not guarantee *)

(** The system clock is set back between two key-ups: [a] is released at
    clock value 1300, [b] at 1200. *)
Definition sample_clock_back : list (Z * Input) :=
  sample_idle ++
  [ (1000, KeyDown (plain "x")); (1100, KeyDown (plain "a"));
    (1150, KeyDown (plain "b")); (1300, KeyUp (plain "a"));
    (1200, KeyUp (plain "b")) ].

(** The event sequence mirrors the live content of the text area: the keys
    of the events, in order, are the characters of [text] (a blank being
    stored as ["Space"]). *)
Definition mirrors (s : State) : Prop :=
  k_key <$> keystrokeData s
  = (λ c, if (c =? 32)%N then js "Space" else [c]) <$> text s.

(** The user starts the session with Shift and types [a]: one event, one
    character. *)
Definition sample_typed_a : list (Z * Input) :=
  sample_idle ++
  [ (1000, KeyDown (plain "Shift")); (1050, KeyUp (plain "Shift"));
    (1100, KeyDown (plain "a")); (1101, Change (js "a"));
    (1180, KeyUp (plain "a")) ].

(** ... then presses [b] and, with [b] still down, Backspace, which deletes
    the [b] from the text area ... *)
Definition sample_backspace_overlap : list (Z * Input) :=
  sample_typed_a ++
  [ (1200, KeyDown (plain "b")); (1201, Change (js "ab"));
    (1250, KeyDown (plain "Backspace")); (1251, Change (js "a")) ].

(** ... and releases [b]. *)
Definition sample_backspace_overlap_released : list (Z * Input) :=
  sample_backspace_overlap ++ [ (1300, KeyUp (plain "b")) ].

(** ** Auxiliary facts on lists *)

Lemma snoc_or_nil {A} (l : list A) : l = [] ∨ ∃ l' x, l = l' ++ [x].
Proof.
  induction l as [|y l' _] using rev_ind; [by left | right; eauto].
Qed.

Lemma removelast_snoc {A} (l : list A) (x : A) : removelast (l ++ [x]) = l.
Proof. apply removelast_last. Qed.

Lemma flights_ok_nil : flights_ok [].
Proof. split; intros *; by rewrite lookup_nil. Qed.

Lemma flights_ok_prefix (l : list Keystroke) (x : Keystroke) :
  flights_ok (l ++ [x]) → flights_ok l.
Proof.
  intros [H0 HS]. split.
  - intros k Hk. apply H0. by apply lookup_app_l_Some.
  - intros i p k Hp Hk.
    apply (HS i); by apply lookup_app_l_Some.
Qed.

Lemma flights_ok_removelast (l : list Keystroke) :
  flights_ok l → flights_ok (removelast l).
Proof.
  destruct (snoc_or_nil l) as [-> | (l' & x & ->)]; [done |].
  rewrite removelast_snoc. apply flights_ok_prefix.
Qed.

Lemma flights_ok_snoc (l : list Keystroke) (k : Keystroke) :
  flights_ok l →
  flightTime k =
    (if (0 <? length l)%nat
     then pressTime k - default 0 (releaseTime <$> last l) else 0) →
  flights_ok (l ++ [k]).
Proof.
  intros [H0 HS] Hk. split.
  - intros k' Hk'. apply lookup_snoc_Some in Hk' as [[Hlt Hl] | [Hlen <-]].
    + by apply H0.
    + rewrite <- Hlen in Hk. by simpl in Hk.
  - intros i p k' Hp Hk'.
    apply lookup_snoc_Some in Hk' as [[Hlt Hl] | [Hlen <-]].
    + apply (HS i); [| done].
      apply lookup_snoc_Some in Hp as [[_ Hp] | [Hlen' _]]; [done | lia].
    + apply lookup_snoc_Some in Hp as [[_ Hp] | [Hlen' _]]; [| lia].
      rewrite last_lookup, <- Hlen in Hk. simpl in Hk.
      by rewrite Hp in Hk.
Qed.

Lemma release_ordered_prefix (l : list Keystroke) (x : Keystroke) :
  release_ordered (l ++ [x]) → release_ordered l.
Proof. apply StronglySorted_app_1_l. Qed.

Lemma release_ordered_removelast (l : list Keystroke) :
  release_ordered l → release_ordered (removelast l).
Proof.
  destruct (snoc_or_nil l) as [-> | (l' & x & ->)]; [done |].
  rewrite removelast_snoc. apply release_ordered_prefix.
Qed.

Lemma release_ordered_snoc (l : list Keystroke) (k : Keystroke) :
  release_ordered l →
  (∀ ev, ev ∈ l → releaseTime ev ≤ releaseTime k) →
  release_ordered (l ++ [k]).
Proof.
  intros Hl Hle. apply StronglySorted_app_2; [| done |].
  - intros a b Ha Hb. apply list_elem_of_singleton in Hb as ->. by apply Hle.
  - repeat constructor.
Qed.

Lemma elem_of_removelast {A} (l : list A) (x : A) :
  x ∈ removelast l → x ∈ l.
Proof.
  destruct (snoc_or_nil l) as [-> | (l' & y & ->)]; [done |].
  rewrite removelast_snoc. set_solver.
Qed.

(** ** The handlers, path by path *)

Lemma set_keystrokeData_id (s : State) :
  set_keystrokeData s (keystrokeData s) = s.
Proof. by destruct s. Qed.

Lemma handleKeyDown_case (s : State) (e : KeyEvent) (now : Z) :
  keydown_case s e now (handleKeyDown s e now).
Proof.
  unfold handleKeyDown.
  destruct (isRecording s) eqn:Hrec; simpl.
  - case_bool_decide as Henter; [by apply kd_enter |].
    case_bool_decide as Hback.
    { replace (if (0 <? length (keystrokeData s))%nat
               then set_keystrokeData s (removelast (keystrokeData s))
               else s)
        with (set_keystrokeData s (removelast (keystrokeData s)));
        [by apply kd_backspace |].
      destruct (keystrokeData s) eqn:Hks; simpl; [| done].
      by rewrite <- Hks, set_keystrokeData_id. }
    destruct (suppressed e) eqn:Hsup; [apply kd_ignored; auto |].
    destruct (printable (key e)) eqn:Hpr; [| apply kd_ignored; auto].
    destruct (repeat e) eqn:Hrep; [apply kd_ignored; auto |].
    destruct (falsy_entry (keyDownTimes s !! key e)) eqn:Hf;
      [by apply kd_press | apply kd_ignored; auto].
  - destruct (isCompleted s) eqn:Hcomp; simpl;
      [by apply kd_completed | by apply kd_start].
Qed.

(** [handleKeyUp] either leaves the state alone or closes the pending press
    of its key. *)
Lemma handleKeyUp_case (s : State) (e : KeyEvent) (now : Z) :
  handleKeyUp s e now = s ∨
  ∃ t, isRecording s = true ∧ printable (key e) = true ∧
       keyDownTimes s !! key e = Some t ∧
       handleKeyUp s e now =
         mkState (view s) (username s) (isRecording s) (isCompleted s)
                 (keystrokeData s ++ [closeEvent s e now t]) (text s)
                 (delete (key e) (keyDownTimes s)) (sessionStartTime s).
Proof.
  unfold handleKeyUp, printable.
  destruct (isRecording s); simpl; [| by left].
  destruct (length (key e) =? 1)%nat; simpl.
  - destruct (keyDownTimes s !! key e) as [t|]; [right | by left].
    by exists t.
  - case_bool_decide; simpl; [| by left].
    destruct (keyDownTimes s !! key e) as [t|]; [right | by left].
    by exists t.
Qed.

(** ** Preservation of the invariants *)

Lemma Inv_fields (s s' : State) :
  isRecording s' = isRecording s → isCompleted s' = isCompleted s →
  keystrokeData s' = keystrokeData s → keyDownTimes s' = keyDownTimes s →
  sessionStartTime s' = sessionStartTime s →
  Inv s → Inv s'.
Proof.
  intros Hr Hc Hk Hm Ht [Hidle Hexcl Hpr Hfl].
  split; rewrite ?Hr, ?Hc, ?Hk, ?Hm, ?Ht; auto.
Qed.

Lemma Inv_fresh (v : View) (u : list N) (r : bool) (o : option Z) :
  (r = false → o = None) → Inv (mkState v u r false [] [] ∅ o).
Proof.
  intros Ho. split; simpl.
  - auto.
  - done.
  - intros k t Hk. by rewrite lookup_empty in Hk.
  - apply flights_ok_nil.
Qed.

Lemma Inv_initial : Inv initialState.
Proof. by apply Inv_fresh. Qed.

Lemma Inv_reset (s : State) : Inv (resetInternalState s).
Proof. by apply Inv_fresh. Qed.

Lemma startSession_idle (s : State) (now : Z) :
  Inv s → isRecording s = false → isCompleted s = false →
  startSession s now
    = mkState (view s) (username s) true false [] [] ∅ (Some now).
Proof.
  intros HI Hr Hc. destruct (inv_idle s HI Hr Hc) as (_ & Ht & _).
  unfold startSession. by rewrite Ht.
Qed.

Lemma Inv_handleKeyDown (s : State) (e : KeyEvent) (now : Z) :
  Inv s → Inv (fst (handleKeyDown s e now)).
Proof.
  intros HI.
  destruct (handleKeyDown_case s e now)
    as [Hr Hc | Hr Hc | Hr He | Hr _ _ | Hr _ _ _ | Hr _ _ _ Hpr _ _]; simpl.
  - rewrite startSession_idle by done. by apply Inv_fresh.
  - done.
  - destruct HI as [Hidle Hexcl Hp Hfl]. split; simpl; auto; done.
  - destruct HI as [Hidle Hexcl Hp Hfl]. split; simpl; auto.
    + intros Hr'. congruence.
    + by apply flights_ok_removelast.
  - done.
  - destruct HI as [Hidle Hexcl Hp Hfl]. split; simpl; auto.
    + intros Hr'. congruence.
    + intros k t Hk. apply lookup_insert_Some in Hk as [[<- _] | [_ Hk]]; eauto.
Qed.

Lemma Inv_handleKeyUp (s : State) (e : KeyEvent) (now : Z) :
  Inv s → Inv (handleKeyUp s e now).
Proof.
  intros HI.
  destruct (handleKeyUp_case s e now) as [-> | (t & Hr & Hpr & Ht & ->)];
    [done |].
  destruct HI as [Hidle Hexcl Hp Hfl]. split; simpl; auto.
  - intros Hr'. congruence.
  - intros k t' Hk. apply lookup_delete_Some in Hk as [_ Hk]. eauto.
  - by apply flights_ok_snoc.
Qed.

Lemma Inv_setView (s : State) (v : View) : Inv s → Inv (setView s v).
Proof.
  intros HI. unfold setView. case_decide; [done |].
  destruct v; try apply Inv_reset.
  by apply (Inv_fields s).
Qed.

Lemma Inv_step (s : State) (i : Z * Input) : Inv s → Inv (fst (step s i)).
Proof.
  intros HI. destruct i as [now [e | e | v | | v | u]]; simpl.
  - by apply Inv_handleKeyDown.
  - by apply Inv_handleKeyUp.
  - unfold handleChange. destruct (isRecording s); simpl; [| done].
    by apply (Inv_fields s).
  - apply Inv_reset.
  - by apply Inv_setView.
  - by apply (Inv_fields s).
Qed.

Lemma run_cons (s : State) (i : Z * Input) (tr : list (Z * Input)) :
  run s (i :: tr) =
    (fst (run (fst (step s i)) tr),
     option_list (snd (step s i)) ++ snd (run (fst (step s i)) tr)).
Proof.
  simpl. destruct (step s i) as [s1 o]. simpl.
  by destruct (run s1 tr).
Qed.

Lemma Inv_run (s : State) (tr : list (Z * Input)) :
  Inv s → Inv (fst (run s tr)).
Proof.
  revert s. induction tr as [|i tr IH]; intros s HI; [done |].
  rewrite run_cons. simpl. apply IH. by apply Inv_step.
Qed.

Lemma Inv_final (tr : list (Z * Input)) : Inv (final tr).
Proof. apply Inv_run, Inv_initial. Qed.

(** ** The timed invariant under a clock that never decreases *)

Lemma offset_mono (s : State) (c c' : Z) : c ≤ c' → offset s c ≤ offset s c'.
Proof. unfold offset. lia. Qed.

Lemma TimedInv_fields (c c' : Z) (s s' : State) :
  keystrokeData s' = keystrokeData s → keyDownTimes s' = keyDownTimes s →
  sessionStartTime s' = sessionStartTime s → c ≤ c' →
  TimedInv c s → TimedInv c' s'.
Proof.
  intros Hk Hm Ht Hc [Hp Hrel Hd Hs].
  assert (Hoff : offset s c ≤ offset s' c')
    by (unfold offset; rewrite Ht; lia).
  split; rewrite ?Hk, ?Hm; auto.
  - intros k t Hkt. specialize (Hp k t Hkt). lia.
  - intros ev Hev. specialize (Hrel ev Hev). lia.
Qed.

Lemma TimedInv_fresh (c : Z) (v : View) (u : list N) (r b : bool)
    (tx : list N) (o : option Z) :
  TimedInv c (mkState v u r b [] tx ∅ o).
Proof.
  split; simpl.
  - intros k t Hk. by rewrite lookup_empty in Hk.
  - intros ev Hev. by apply elem_of_nil in Hev.
  - intros ev Hev. by apply elem_of_nil in Hev.
  - constructor.
Qed.

Lemma TimedInv_handleKeyDown (c now : Z) (s : State) (e : KeyEvent) :
  Inv s → TimedInv c s → c ≤ now →
  TimedInv now (fst (handleKeyDown s e now)).
Proof.
  intros HI HT Hc.
  destruct (handleKeyDown_case s e now)
    as [Hr Hc' | Hr Hc' | Hr He | Hr _ _ | Hr _ _ _ | Hr _ _ _ Hpr _ _]; simpl.
  - rewrite startSession_idle by done. apply TimedInv_fresh.
  - by apply (TimedInv_fields c now s).
  - by apply (TimedInv_fields c now s).
  - destruct HT as [Hp Hrel Hd Hs]. split; simpl.
    + intros k t Hkt. specialize (Hp k t Hkt).
      pose proof (offset_mono s c now Hc). unfold offset in *. simpl. lia.
    + intros ev Hev. apply elem_of_removelast in Hev.
      specialize (Hrel ev Hev).
      pose proof (offset_mono s c now Hc). unfold offset in *. simpl. lia.
    + intros ev Hev. apply Hd. by apply elem_of_removelast.
    + by apply release_ordered_removelast.
  - by apply (TimedInv_fields c now s).
  - destruct HT as [Hp Hrel Hd Hs]. split; simpl; auto.
    + intros k t Hkt. change (t ≤ offset s now).
      apply lookup_insert_Some in Hkt as [[_ <-] | [_ Hkt]]; [lia |].
      specialize (Hp k t Hkt). pose proof (offset_mono s c now Hc). lia.
    + intros ev Hev. change (releaseTime ev ≤ offset s now).
      specialize (Hrel ev Hev). pose proof (offset_mono s c now Hc). lia.
Qed.

Lemma TimedInv_handleKeyUp (c now : Z) (s : State) (e : KeyEvent) :
  TimedInv c s → c ≤ now → TimedInv now (handleKeyUp s e now).
Proof.
  intros HT Hc.
  destruct (handleKeyUp_case s e now) as [-> | (t & Hr & Hpr & Ht & ->)].
  { by apply (TimedInv_fields c now s). }
  destruct HT as [Hp Hrel Hd Hs].
  pose proof (offset_mono s c now Hc) as Hoff.
  pose proof (Hp _ _ Ht) as Hpress.
  split; simpl.
  - intros k t' Hk. change (t' ≤ offset s now).
    apply lookup_delete_Some in Hk as [_ Hk]. specialize (Hp k t' Hk). lia.
  - intros ev Hev. change (releaseTime ev ≤ offset s now).
    apply elem_of_app in Hev as [Hev | Hev].
    + specialize (Hrel ev Hev). lia.
    + apply list_elem_of_singleton in Hev as ->. simpl. lia.
  - intros ev Hev. apply elem_of_app in Hev as [Hev | Hev]; [by apply Hd |].
    apply list_elem_of_singleton in Hev as ->.
    unfold dwell_ok; simpl. lia.
  - apply release_ordered_snoc; [done |].
    intros ev Hev. specialize (Hrel ev Hev). simpl. lia.
Qed.

Lemma TimedInv_step (c now : Z) (s : State) (i : Input) :
  Inv s → TimedInv c s → c ≤ now → TimedInv now (fst (step s (now, i))).
Proof.
  intros HI HT Hc. destruct i as [e | e | v | | v | u]; simpl.
  - by apply (TimedInv_handleKeyDown c).
  - by apply (TimedInv_handleKeyUp c).
  - unfold handleChange. destruct (isRecording s); simpl;
      by apply (TimedInv_fields c now s).
  - apply TimedInv_fresh.
  - unfold setView. case_decide; [by apply (TimedInv_fields c now s) |].
    destruct v; try apply TimedInv_fresh.
    by apply (TimedInv_fields c now s).
  - by apply (TimedInv_fields c now s).
Qed.

Lemma TimedInv_run (tr : list (Z * Input)) :
  ∀ (c : Z) (s : State),
    Inv s → TimedInv c s → monotone_from c tr = true →
    ∃ c', TimedInv c' (fst (run s tr)).
Proof.
  induction tr as [|[now i] tr IH]; intros c s HI HT Hm.
  - by exists c.
  - simpl in Hm. apply andb_true_iff in Hm as [Hle Hm].
    apply Z.leb_le in Hle.
    rewrite run_cons. cbn [fst]. apply (IH now).
    + by apply Inv_step.
    + by apply (TimedInv_step c).
    + done.
Qed.

Lemma TimedInv_final (tr : list (Z * Input)) :
  monotone tr = true → ∃ c, TimedInv c (final tr).
Proof.
  intros Hm. destruct tr as [|[now i] tr].
  - exists 0. apply TimedInv_fresh.
  - apply (TimedInv_run _ now); [apply Inv_initial | apply TimedInv_fresh |].
    simpl in *. by rewrite Z.leb_refl.
Qed.

(** ** What is posted *)

Lemma step_posts (s : State) (i : Z * Input) (p : Payload) :
  snd (step s i) = Some p →
  ∃ e, snd i = KeyDown e ∧ isRecording s = true ∧ key e = js "Enter" ∧
       keystrokes p = keystrokeData s ∧ keystrokeData s ≠ [].
Proof.
  destruct i as [now [e | e | v | | v | u]]; simpl; try done.
  intros Hp. exists e.
  destruct (handleKeyDown_case s e now)
    as [Hr Hc | Hr Hc | Hr He | Hr _ _ | Hr _ _ _ | Hr _ _ _ _ _ _];
    simpl in Hp; try done.
  unfold submitData in Hp.
  destruct (keystrokeData s) as [|k l] eqn:Hks; simpl in Hp; [done |].
  injection Hp as <-. by simpl.
Qed.

Lemma run_posts (tr : list (Z * Input)) :
  ∀ (s : State) (p : Payload),
    p ∈ snd (run s tr) →
    ∃ tr1 tr2 now e,
      tr = tr1 ++ (now, KeyDown e) :: tr2 ∧
      isRecording (fst (run s tr1)) = true ∧ key e = js "Enter" ∧
      keystrokes p = keystrokeData (fst (run s tr1)) ∧
      keystrokeData (fst (run s tr1)) ≠ [].
Proof.
  induction tr as [|i tr IH]; intros s p Hp.
  - by apply elem_of_nil in Hp.
  - rewrite run_cons in Hp. cbn [snd] in Hp.
    apply elem_of_app in Hp as [Hp | Hp].
    + destruct (snd (step s i)) as [q|] eqn:Hq; simpl in Hp;
        [| by apply elem_of_nil in Hp].
      apply list_elem_of_singleton in Hp as ->.
      destruct (step_posts s i q Hq) as (e & Hi & Hr & He & Hk & Hne).
      destruct i as [now inp]. simpl in Hi. subst inp.
      by exists [], tr, now, e.
    + destruct (IH _ _ Hp) as (tr1 & tr2 & now & e & -> & Hr & He & Hk & Hne).
      exists (i :: tr1), tr2, now, e.
      rewrite run_cons. by cbn [fst].
Qed.

Lemma monotone_from_prefix (tr1 tr2 : list (Z * Input)) :
  ∀ c, monotone_from c (tr1 ++ tr2) = true → monotone_from c tr1 = true.
Proof.
  induction tr1 as [|[t i] tr1 IH]; intros c H; [done |].
  simpl in *. apply andb_true_iff in H as [-> H]. simpl. by apply IH.
Qed.

Lemma monotone_prefix (tr1 tr2 : list (Z * Input)) :
  monotone (tr1 ++ tr2) = true → monotone tr1 = true.
Proof.
  destruct tr1 as [|[t i] tr1]; [done |]. simpl.
  apply monotone_from_prefix.
Qed.

(** Every posted session is the event sequence of a reachable state. *)
Lemma posted_reachable (tr : list (Z * Input)) (p : Payload) :
  p ∈ snd (run initialState tr) →
  ∃ tr1 tr2, tr = tr1 ++ tr2 ∧ keystrokes p = keystrokeData (final tr1).
Proof.
  intros Hp.
  destruct (run_posts tr _ _ Hp) as (tr1 & tr2 & now & e & -> & _ & _ & Hk & _).
  by exists tr1, ((now, KeyDown e) :: tr2).
Qed.

(** ** The ranking order of the engine *)

Lemma lex_leb_total (a b : list N) : lex_leb a b = true ∨ lex_leb b a = true.
Proof.
  revert b. induction a as [|x a IH]; intros [|y b]; simpl; auto.
  destruct (N.compare_spec x y) as [-> | Hlt | Hgt].
  - rewrite N.eqb_refl, N.ltb_irrefl. simpl. apply IH.
  - left. apply N.ltb_lt in Hlt. by rewrite Hlt.
  - right. apply N.ltb_lt in Hgt. by rewrite Hgt.
Qed.

Lemma rank_le_total : Total rank_le.
Proof.
  intros a b. unfold rank_le, rank_leb.
  rewrite <- (Qcompare_antisym (score a) (score b)).
  destruct (score a ?= score b)%Q; simpl; auto.
  apply lex_leb_total.
Qed.

Lemma rank_le_score (a b : Match) : rank_le a b → (score a <= score b)%Q.
Proof.
  unfold rank_le, rank_leb. intros H. apply Qle_alt.
  by destruct (score a ?= score b)%Q.
Qed.

Lemma score_le_trans : Transitive score_le.
Proof. intros a b c. unfold score_le. apply Qle_trans. Qed.

Lemma HdRel_rank_score (a : Match) (l : list Match) :
  HdRel rank_le a l → HdRel score_le a l.
Proof. destruct 1; constructor. by apply rank_le_score. Qed.

Lemma Sorted_rank_score (l : list Match) :
  Sorted rank_le l → StronglySorted score_le l.
Proof.
  intros H. apply (@Sorted_StronglySorted _ _ score_le_trans).
  induction H as [|a l Hl IH Hhd]; constructor; [done |].
  by apply HdRel_rank_score.
Qed.

(** ** A completed attempt ignores the keyboard *)

Lemma completed_step (s : State) (i : Z * Input) :
  isRecording s = false → isCompleted s = true →
  is_key_input (snd i) = true → step s i = (s, None).
Proof.
  intros Hr Hc Hi. destruct i as [now [e | e | v | | v | u]]; try done; simpl.
  - unfold handleKeyDown. by rewrite Hr, Hc.
  - unfold handleKeyUp. by rewrite Hr.
  - unfold handleChange. by rewrite Hr.
Qed.

Lemma completed_run (s : State) (tr : list (Z * Input)) :
  isRecording s = false → isCompleted s = true →
  Forall (λ i, is_key_input (snd i) = true) tr → run s tr = (s, []).
Proof.
  intros Hr Hc Htr. induction Htr as [|i tr Hi _ IH]; [done |].
  rewrite run_cons, (completed_step s i) by done.
  cbn [fst snd]. by rewrite IH.
Qed.

Lemma printable_Enter : printable (js "Enter") = false.
Proof. reflexivity. Qed.

Lemma printable_Backspace : printable (js "Backspace") = false.
Proof. reflexivity. Qed.

(** How one input changes the event sequence: a key-up that finds its press
    pending appends the closed event; anything else leaves a prefix. *)
Lemma step_events (s : State) (i : Z * Input) :
  (∃ e t, snd i = KeyUp e ∧ keyDownTimes s !! key e = Some t ∧
          keystrokeData (fst (step s i)) =
            keystrokeData s ++ [closeEvent s e (fst i) t])
  ∨ keystrokeData (fst (step s i)) `prefix_of` keystrokeData s.
Proof.
  destruct i as [now [e | e | v | | v | u]]; simpl.
  - right.
    destruct (handleKeyDown_case s e now)
      as [Hr Hc | Hr Hc | Hr He | Hr _ _ | Hr _ _ _ | Hr _ _ _ _ _ _];
      simpl; try done.
    + unfold startSession. destruct (falsy_time _); simpl; [| done].
      apply prefix_nil.
    + destruct (snoc_or_nil (keystrokeData s)) as [-> | (l & x & ->)];
        [done |].
      rewrite removelast_snoc. by apply prefix_app_r.
  - destruct (handleKeyUp_case s e now) as [-> | (t & Hr & Hpr & Ht & ->)];
      [by right | left]. by exists e, t.
  - right. unfold handleChange. by destruct (isRecording s).
  - right. apply prefix_nil.
  - right. unfold setView. case_decide; [done |].
    destruct v; simpl; try apply prefix_nil. done.
  - by right.
Qed.

(** * The claims *)

(** C1: for every verification request (a non-empty test profile), the
    engine returns a result whose [matches] list holds one entry per enrolled
    identity with a training profile, sorted ascending by distance, and whose
    [verified] flag is true if and only if the top-ranked entry's identity
    equals the claimed identity and its confidence is at least the acceptance
    threshold. *)
Theorem C1_verify_ranked_and_verified
    (cfg : Config) (claimed : list N) (testProfile : gmap (list N) Feature)
    (enrolledUsers : list EnrolledUser) :
  testProfile ≠ ∅ →
  ∃ r, verify cfg claimed testProfile enrolledUsers = inr r ∧
       StronglySorted score_le (matches r) ∧
       m_identity <$> matches r ≡ₚ
         identity <$> filter (λ u, (0 < length (trainingProfiles u))%nat)
                             enrolledUsers ∧
       (verified r = true ↔
        ∃ top rest, matches r = top :: rest ∧ m_identity top = claimed ∧
                    (acceptanceThreshold cfg <= confidencePercent top)%Q).
Proof.
  intros Hne. unfold verify.
  destruct (decide (size testProfile = 0%nat)) as [Hsz | _].
  { by apply map_size_empty_iff in Hsz. }
  eexists. split; [reflexivity |]. simpl. split; [| split].
  - apply Sorted_rank_score, Sorted_merge_sort, rank_le_total.
  - rewrite merge_sort_Permutation, <- list_fmap_compose. reflexivity.
  - unfold decide_verified.
    destruct (merge_sort _ _) as [|top rest].
    + split; [done | by intros (? & ? & ? & _)].
    + rewrite andb_true_iff, bool_decide_eq_true, Qle_bool_iff. split.
      * intros [Hid Hc]. by exists top, rest.
      * intros (top' & rest' & [= <- <-] & Hid & Hc). done.
Qed.

Lemma C1_witness :
  sample_test ≠ ∅ ∧
  ∃ r, verify sample_config (js "alice") sample_test [sample_bob; sample_alice]
       = inr r ∧
       StronglySorted score_le (matches r) ∧
       m_identity <$> matches r ≡ₚ
         identity <$> filter (λ u, (0 < length (trainingProfiles u))%nat)
                             [sample_bob; sample_alice] ∧
       (verified r = true ↔
        ∃ top rest, matches r = top :: rest ∧ m_identity top = js "alice" ∧
                    (acceptanceThreshold sample_config
                     <= confidencePercent top)%Q).
Proof.
  assert (H : sample_test ≠ ∅) by apply map_non_empty_singleton.
  split; [exact H |].
  exact (C1_verify_ranked_and_verified sample_config (js "alice") sample_test
           [sample_bob; sample_alice] H).
Defined.

(** C2: in every session the recorder holds or posts, the first event has
    flight time 0 and every later event's flight time is its press offset
    minus the release offset of the event just before it; the difference is
    stored as computed, also when it is negative (the overlapping keys of
    [sample_typing] give a flight time of -50). *)
Theorem C2_flight_times (tr : list (Z * Input)) :
  flights_ok (keystrokeData (final tr)) ∧
  (∀ p, p ∈ snd (run initialState tr) → flights_ok (keystrokes p)) ∧
  (∃ a b, keystrokeData (final sample_typing) = [a; b] ∧
          flightTime a = 0 ∧
          flightTime b = pressTime b - releaseTime a ∧ flightTime b = -50).
Proof.
  split; [apply Inv_final | split].
  - intros p Hp. destruct (posted_reachable tr p Hp) as (tr1 & tr2 & _ & ->).
    apply Inv_final.
  - by eexists _, _.
Qed.

Lemma C2_witness :
  ∃ p, p ∈ snd (run initialState sample_completed) ∧ flights_ok (keystrokes p).
Proof.
  eexists. split.
  - vm_compute. apply list_elem_of_here.
  - apply (proj1 (proj2 (C2_flight_times sample_completed))).
    vm_compute. apply list_elem_of_here.
Defined.

(** C3, as the code has it: under a clock that never decreases, the event
    sequence of every session (held or posted) is ordered by release time.
    Whatever the clock does, events are appended exactly when their key-up
    is processed: a key-up processed while recording, for a printable key
    with a pending press, appends one event at the end of the sequence, with
    the buffered press time and the release offset read at that moment; a
    key-up in any other situation leaves the sequence as it is, and no other
    input ever appends.  A press still pending when Enter finalizes the
    session adds nothing: the finalized and the posted sequence are the
    sequence as it stood, and no later key event changes it. *)
Theorem C3_release_order_and_pending :
  (∀ tr, monotone tr = true →
     release_ordered (keystrokeData (final tr)) ∧
     ∀ p, p ∈ snd (run initialState tr) → release_ordered (keystrokes p)) ∧
  (∀ s e now,
     keystrokeData (handleKeyUp s e now) =
       if isRecording s && printable (key e) then
         match keyDownTimes s !! key e with
         | Some t => keystrokeData s ++ [closeEvent s e now t]
         | None => keystrokeData s
         end
       else keystrokeData s) ∧
  (∀ s e now t,
     pressTime (closeEvent s e now t) = t ∧
     releaseTime (closeEvent s e now t) = offset s now) ∧
  (∀ s i, (∀ e, snd i ≠ KeyUp e) →
     keystrokeData (fst (step s i)) `prefix_of` keystrokeData s) ∧
  (∀ s e now k t later,
     isRecording s = true → key e = js "Enter" →
     keyDownTimes s !! k = Some t →
     Forall (λ i, is_key_input (snd i) = true) later →
     keystrokeData (fst (handleKeyDown s e now)) = keystrokeData s ∧
     (∀ p, snd (handleKeyDown s e now) = Some p →
           keystrokes p = keystrokeData s) ∧
     run (fst (handleKeyDown s e now)) later
       = (fst (handleKeyDown s e now), [])).
Proof.
  split; [| split; [| split; [| split]]].
  - intros tr Hm. split.
    + destruct (TimedInv_final tr Hm) as [c HT]. apply HT.
    + intros p Hp.
      destruct (posted_reachable tr p Hp) as (tr1 & tr2 & -> & ->).
      destruct (TimedInv_final tr1 (monotone_prefix _ _ Hm)) as [c HT].
      apply HT.
  - intros s e now. unfold handleKeyUp, printable.
    destruct (isRecording s); simpl; [| done].
    destruct (length (key e) =? 1)%nat; simpl.
    + by destruct (keyDownTimes s !! key e).
    + destruct (bool_decide (key e = js "Space")); simpl; [| done].
      by destruct (keyDownTimes s !! key e).
  - done.
  - intros s i Hi. destruct (step_events s i) as [(e & t & He & _) | Hp];
      [by destruct (Hi e) | done].
  - intros s e now k t later Hr He Hk Hlater.
    assert (Hkd : handleKeyDown s e now = stopSession s now).
    { unfold handleKeyDown. by rewrite Hr, He. }
    rewrite Hkd. simpl. split; [done | split].
    + intros p Hp. unfold submitData in Hp.
      destruct (keystrokeData s); simpl in Hp; [done |]. by injection Hp as <-.
    + by apply completed_run.
Qed.

Lemma C3_witness :
  monotone sample_completed = true ∧
  release_ordered (keystrokeData (final sample_completed)) ∧
  keyDownTimes (final sample_pending) !! js "c" = Some 300 ∧
  keystrokeData (fst (handleKeyDown (final sample_pending) (plain "Enter") 1400))
    = keystrokeData (final sample_pending) ∧
  length (keystrokeData (handleKeyUp (final sample_pending) (plain "c") 1390))
    = 3%nat.
Proof.
  destruct C3_release_order_and_pending
    as (Hsorted & Hkeyup & _ & _ & Hpending).
  split; [reflexivity | split; [| split; [reflexivity | split]]].
  - exact (proj1 (Hsorted sample_completed eq_refl)).
  - exact (proj1 (Hpending (final sample_pending) (plain "Enter") 1400
                    (js "c") 300 [] eq_refl eq_refl eq_refl (Forall_nil_2 _))).
  - rewrite (Hkeyup (final sample_pending) (plain "c") 1390). reflexivity.
Defined.

(** C3, as stated, fails: the offsets come from [Date.now()], and when the
    system clock is set back between two key-ups the later release gets the
    smaller offset, so the recorded sequence is not ordered by release
    time. *)
Lemma C3_counterexample :
  monotone sample_clock_back = false ∧
  (releaseTime <$> keystrokeData (final sample_clock_back)) = [300; 200] ∧
  ¬ release_ordered (keystrokeData (final sample_clock_back)).
Proof.
  split; [reflexivity | split; [reflexivity |]].
  assert (Hk : ∃ a b, keystrokeData (final sample_clock_back) = [a; b] ∧
                      releaseTime a = 300 ∧ releaseTime b = 200)
    by (eexists _, _; split; [reflexivity | split; reflexivity]).
  destruct Hk as (a & b & Heq & Ha & Hb). rewrite Heq.
  intros Hsorted. apply StronglySorted_cons in Hsorted as [Hall _].
  apply Forall_cons in Hall as [Hle _]. lia.
Qed.

(** C4: while Recording, an Enter key-down leaves the recorder Completed
    (not recording any more), and with an empty event list nothing is
    posted; with a non-empty list exactly that list is posted. *)
Theorem C4_enter_completes (s : State) (e : KeyEvent) (now : Z) :
  isRecording s = true → key e = js "Enter" →
  isRecording (fst (handleKeyDown s e now)) = false ∧
  isCompleted (fst (handleKeyDown s e now)) = true ∧
  (keystrokeData s = [] → snd (handleKeyDown s e now) = None) ∧
  (keystrokeData s ≠ [] →
   ∃ p, snd (handleKeyDown s e now) = Some p ∧
        keystrokes p = keystrokeData s).
Proof.
  intros Hr He. unfold handleKeyDown. rewrite Hr, He. simpl.
  split; [done | split; [done | split]].
  - by intros ->.
  - intros Hne. unfold submitData.
    destruct (keystrokeData s) as [|k l]; [done | simpl]. by eexists.
Qed.

Lemma C4_witness :
  isRecording (final [(1000, KeyDown (plain "x"))]) = true ∧
  isCompleted
    (fst (handleKeyDown (final [(1000, KeyDown (plain "x"))])
            (plain "Enter") 1100)) = true ∧
  snd (handleKeyDown (final [(1000, KeyDown (plain "x"))])
         (plain "Enter") 1100) = None.
Proof.
  pose proof (C4_enter_completes (final [(1000, KeyDown (plain "x"))])
                (plain "Enter") 1100 eq_refl eq_refl) as (_ & Hc & Hn & _).
  split; [reflexivity | split; [exact Hc | exact (Hn eq_refl)]].
Defined.

(** C5: while Recording, a Backspace key-down removes exactly the last event
    of the sequence (nothing when it is empty) and changes nothing else; the
    Backspace key itself is never buffered and its key-up generates no
    event. *)
Theorem C5_backspace_removes_last (s : State) (e : KeyEvent) (now : Z) :
  isRecording s = true → key e = js "Backspace" →
  handleKeyDown s e now
    = (set_keystrokeData s (removelast (keystrokeData s)), None) ∧
  (∀ l x, keystrokeData s = l ++ [x] →
          keystrokeData (fst (handleKeyDown s e now)) = l) ∧
  (keystrokeData s = [] → fst (handleKeyDown s e now) = s) ∧
  keyDownTimes (fst (handleKeyDown s e now)) = keyDownTimes s ∧
  (∀ now', handleKeyUp s e now' = s).
Proof.
  intros Hr He.
  assert (Hkd : handleKeyDown s e now
                = (set_keystrokeData s (removelast (keystrokeData s)), None)).
  { destruct (handleKeyDown_case s e now)
      as [Hr' _ | Hr' _ | _ He' | _ _ _ | _ _ Hb _ | _ _ Hb _ _ _ _];
      try congruence.
    rewrite He in He'. discriminate He'. }
  rewrite Hkd. simpl. split; [done | split; [| split; [| split]]].
  - intros l x ->. apply removelast_snoc.
  - intros Hnil. rewrite Hnil. simpl. rewrite <- Hnil.
    apply set_keystrokeData_id.
  - done.
  - intros now'. unfold handleKeyUp. by rewrite Hr, He.
Qed.

Lemma C5_witness :
  isRecording (final sample_typing) = true ∧
  length (keystrokeData (final sample_typing)) = 2%nat ∧
  length (keystrokeData
            (fst (handleKeyDown (final sample_typing) (plain "Backspace") 1300)))
    = 1%nat.
Proof.
  pose proof (C5_backspace_removes_last (final sample_typing)
                (plain "Backspace") 1300 eq_refl eq_refl) as (Hkd & _).
  split; [reflexivity | split; [reflexivity |]].
  rewrite Hkd. reflexivity.
Defined.

(** C5, as stated, fails in its last clause: removing the last completed
    event does not keep the event sequence a mirror of the live text.  With
    [a] typed and [b] held down, Backspace deletes the [b] from the text but
    the event of [a] from the sequence; after [b] is released the text is
    ["a"] and the only event is that of [b]. *)
Lemma C5_counterexample :
  mirrors (final sample_typed_a) ∧
  (isRecording (final sample_backspace_overlap) = true ∧
   text (final sample_backspace_overlap) = js "a" ∧
   keystrokeData (final sample_backspace_overlap) = [] ∧
   ¬ mirrors (final sample_backspace_overlap)) ∧
  (text (final sample_backspace_overlap_released) = js "a" ∧
   k_key <$> keystrokeData (final sample_backspace_overlap_released)
     = [js "b"] ∧
   ¬ mirrors (final sample_backspace_overlap_released)).
Proof.
  split; [reflexivity | split].
  - split; [reflexivity | split; [reflexivity | split; [reflexivity |]]].
    intros H. discriminate H.
  - split; [reflexivity | split; [reflexivity |]].
    intros H. discriminate H.
Qed.

(** C6, as the code has it: a key-down the filter suppresses (a key whose
    name starts with F and is longer than one character, Escape, Tab, or a
    key pressed with control or command held), other than Enter and
    Backspace, leaves the recorder unchanged and posts nothing while the
    recorder is Recording or Completed; in Idle it starts the session like
    any first key-down, and buffers no press and records no event. *)
Theorem C6_suppressed_keys (s : State) (e : KeyEvent) (now : Z) :
  suppressed e = true → key e ≠ js "Enter" → key e ≠ js "Backspace" →
  (isRecording s = true ∨ isCompleted s = true →
   handleKeyDown s e now = (s, None)) ∧
  (isRecording s = false → isCompleted s = false →
   handleKeyDown s e now = (startSession s now, None) ∧
   (falsy_time (sessionStartTime s) = true →
    isRecording (startSession s now) = true ∧
    keystrokeData (startSession s now) = [] ∧
    keyDownTimes (startSession s now) = ∅)).
Proof.
  intros Hsup Hne Hnb. split.
  - intros Hrc.
    destruct (handleKeyDown_case s e now)
      as [Hr Hc | Hr Hc | Hr He | Hr _ Hb | Hr _ _ _ | Hr _ _ Hs _ _ _];
      try done; try congruence.
    destruct Hrc; congruence.
  - intros Hr Hc. split.
    + unfold handleKeyDown. by rewrite Hr, Hc.
    + intros Hf. unfold startSession. by rewrite Hf.
Qed.

Lemma C6_witness :
  suppressed (plain "Escape") = true ∧
  handleKeyDown (final sample_typing) (plain "Escape") 1300
    = (final sample_typing, None).
Proof.
  split; [reflexivity |].
  assert (Hne : key (plain "Escape") ≠ js "Enter") by discriminate.
  assert (Hnb : key (plain "Escape") ≠ js "Backspace") by discriminate.
  exact (proj1 (C6_suppressed_keys (final sample_typing) (plain "Escape") 1300
                  eq_refl Hne Hnb) (or_introl eq_refl)).
Defined.

(** C6, as stated, fails: in the Idle state an Escape key-down fires the
    Idle→Recording transition, and while Recording an Enter key-down with
    control held ends the session. *)
Lemma C6_counterexample :
  (suppressed (plain "Escape") = true ∧
   isRecording (final sample_idle) = false ∧
   isCompleted (final sample_idle) = false ∧
   isRecording (fst (handleKeyDown (final sample_idle) (plain "Escape") 1000))
     = true) ∧
  (suppressed (chord "Enter") = true ∧
   isRecording (final sample_typing) = true ∧
   isCompleted (final sample_typing) = false ∧
   isCompleted
     (fst (handleKeyDown (final sample_typing) (chord "Enter") 1300)) = true).
Proof. by vm_compute. Qed.

(** C7: whenever a press is pending for a key, an auto-repeat key-down of
    that key changes nothing (the buffered press time stays), and the key-up
    of that key (delivered while the text area is enabled, that is before the
    attempt is completed) appends exactly one event, carrying the buffered
    press time, and clears the buffer entry, so that a further key-up of the
    key closes nothing. *)
Theorem C7_auto_repeat_and_release
    (tr : list (Z * Input)) (k : list N) (t : Z) :
  keyDownTimes (final tr) !! k = Some t →
  (∀ e now, key e = k → repeat e = true →
            handleKeyDown (final tr) e now = (final tr, None)) ∧
  (isCompleted (final tr) = false →
   ∀ e now, key e = k →
     keystrokeData (handleKeyUp (final tr) e now)
       = keystrokeData (final tr) ++ [closeEvent (final tr) e now t] ∧
     pressTime (closeEvent (final tr) e now t) = t ∧
     keyDownTimes (handleKeyUp (final tr) e now)
       = delete k (keyDownTimes (final tr)) ∧
     keyDownTimes (handleKeyUp (final tr) e now) !! k = None ∧
     ∀ e' now', key e' = k →
       handleKeyUp (handleKeyUp (final tr) e now) e' now'
         = handleKeyUp (final tr) e now).
Proof.
  intros Hk. pose proof (Inv_final tr) as HI.
  pose proof (inv_printable _ HI k t Hk) as Hpr.
  split.
  - intros e now <- Hrep.
    destruct (handleKeyDown_case (final tr) e now)
      as [Hr Hc | Hr Hc | Hr He | Hr _ Hb | Hr _ _ _ | Hr _ _ _ _ Hnr _];
      try done.
    + destruct (inv_idle _ HI Hr Hc) as (Hempty & _).
      by rewrite Hempty, lookup_empty in Hk.
    + by rewrite He, printable_Enter in Hpr.
    + by rewrite Hb, printable_Backspace in Hpr.
    + congruence.
  - intros Hc e now <-.
    assert (Hr : isRecording (final tr) = true).
    { destruct (isRecording (final tr)) eqn:Hr; [done |].
      destruct (inv_idle _ HI Hr Hc) as (Hempty & _).
      by rewrite Hempty, lookup_empty in Hk. }
    destruct (handleKeyUp_case (final tr) e now)
      as [Hsame | (t' & _ & _ & Ht' & Hup)].
    { unfold handleKeyUp in Hsame. unfold printable in Hpr.
      rewrite Hr, Hk in Hsame. simpl in Hsame.
      apply orb_true_iff in Hpr.
      assert (Hgate : negb (length (key e) =? 1)%nat
                      && negb (bool_decide (key e = js "Space")) = false).
      { destruct Hpr as [-> | ->]; [done | apply andb_false_r]. }
      rewrite Hgate in Hsame.
      apply (f_equal keyDownTimes) in Hsame. simpl in Hsame.
      apply (f_equal (lookup (key e))) in Hsame.
      by rewrite lookup_delete_eq, Hk in Hsame. }
    assert (t' = t) as -> by congruence.
    rewrite Hup. simpl. repeat split.
    + apply lookup_delete_eq.
    + intros e' now' He'.
      match goal with |- handleKeyUp ?s' _ _ = _ => set (s1 := s') end.
      destruct (handleKeyUp_case s1 e' now')
        as [Hsame | (t2 & _ & _ & Ht2 & _)]; [done |].
      subst s1. simpl in Ht2. by rewrite He', lookup_delete_eq in Ht2.
Qed.

Lemma C7_witness :
  keyDownTimes (final sample_pending) !! js "c" = Some 300 ∧
  handleKeyDown (final sample_pending) (held "c") 1350
    = (final sample_pending, None) ∧
  length (keystrokeData (handleKeyUp (final sample_pending) (plain "c") 1390))
    = 3%nat.
Proof.
  pose proof (C7_auto_repeat_and_release sample_pending (js "c") 300 eq_refl)
    as [Hrep Hup].
  split; [reflexivity | split].
  - exact (Hrep (held "c") 1350 eq_refl eq_refl).
  - destruct (Hup eq_refl (plain "c") 1390 eq_refl) as (-> & _).
    reflexivity.
Defined.

(** C8: once a reachable state is Completed, it is not recording, and no
    sequence of key events (key-down, key-up, text change) changes the state
    or posts anything; [resetInternalState] gives a fresh Idle attempt, in
    which the next key-down starts a new session. *)
Theorem C8_completed_is_final (tr later : list (Z * Input)) :
  isCompleted (final tr) = true →
  Forall (λ i, is_key_input (snd i) = true) later →
  isRecording (final tr) = false ∧
  run (final tr) later = (final tr, []) ∧
  (∀ now,
     fst (step (final tr) (now, Reset))
       = mkState (view (final tr)) (username (final tr))
                 false false [] [] ∅ None ∧
     ∀ e now',
       isRecording
         (fst (step (fst (step (final tr) (now, Reset))) (now', KeyDown e)))
       = true).
Proof.
  intros Hc Hlater. pose proof (inv_excl _ (Inv_final tr) Hc) as Hr.
  split; [done | split; [by apply completed_run |]].
  intros now. split; [done |]. intros e now'. reflexivity.
Qed.

Lemma C8_witness :
  isCompleted (final sample_completed) = true ∧
  run (final sample_completed)
      [ (1500, KeyUp (plain "c")); (1600, KeyDown (plain "d"));
        (1700, KeyUp (plain "d")); (1800, KeyDown (plain "Backspace")) ]
    = (final sample_completed, []).
Proof.
  split; [reflexivity |].
  refine (proj1 (proj2 (C8_completed_is_final sample_completed _ eq_refl _))).
  repeat constructor.
Defined.

(** C9: in every recorder state, a key-up of a key with no buffered press
    time leaves the state unchanged. *)
Theorem C9_keyup_without_press (s : State) (e : KeyEvent) (now : Z) :
  keyDownTimes s !! key e = None → handleKeyUp s e now = s.
Proof.
  intros Hk. unfold handleKeyUp. rewrite Hk.
  destruct (isRecording s); simpl; [| done].
  by destruct (negb (length (key e) =? 1)%nat
               && negb (bool_decide (key e = js "Space"))).
Qed.

Lemma C9_witness :
  keyDownTimes (final sample_typing) !! key (plain "a") = None ∧
  handleKeyUp (final sample_typing) (plain "a") 1300 = final sample_typing.
Proof.
  split; [reflexivity |].
  exact (C9_keyup_without_press (final sample_typing) (plain "a") 1300 eq_refl).
Defined.

(** C10: under a clock that never decreases, every event of every session
    (held or posted) has a release offset at least its press offset, a dwell
    time equal to their difference, and so a dwell time that is not
    negative. *)
Theorem C10_dwell_nonnegative (tr : list (Z * Input)) :
  monotone tr = true →
  (∀ k, k ∈ keystrokeData (final tr) →
        pressTime k ≤ releaseTime k ∧
        dwellTime k = releaseTime k - pressTime k ∧ 0 ≤ dwellTime k) ∧
  (∀ p k, p ∈ snd (run initialState tr) → k ∈ keystrokes p →
          pressTime k ≤ releaseTime k ∧
          dwellTime k = releaseTime k - pressTime k ∧ 0 ≤ dwellTime k).
Proof.
  intros Hm. split.
  - destruct (TimedInv_final tr Hm) as [c HT]. apply HT.
  - intros p k Hp. destruct (posted_reachable tr p Hp) as (tr1 & tr2 & -> & ->).
    destruct (TimedInv_final tr1 (monotone_prefix _ _ Hm)) as [c HT].
    apply HT.
Qed.

Lemma C10_witness :
  monotone sample_completed = true ∧
  ∃ k, keystrokeData (final sample_completed) !! 1%nat = Some k ∧
       pressTime k = 150 ∧ releaseTime k = 250 ∧ 0 ≤ dwellTime k.
Proof.
  split; [reflexivity |].
  eexists. split; [reflexivity |]. split; [reflexivity |].
  split; [reflexivity |].
  refine (proj2 (proj2 (proj1 (C10_dwell_nonnegative sample_completed eq_refl)
                          _ _))).
  apply list_elem_of_lookup. by exists 1%nat.
Defined.

(** * Further properties of the recorder *)

(** ** Invariants of the events and of the session origin *)

Lemma events_invariant (P : Keystroke → Prop) :
  (∀ s e now t, Inv s → keyDownTimes s !! key e = Some t →
                P (closeEvent s e now t)) →
  ∀ tr s, Inv s → (∀ k, k ∈ keystrokeData s → P k) →
          ∀ k, k ∈ keystrokeData (fst (run s tr)) → P k.
Proof.
  intros Hclose. induction tr as [|i tr IH]; intros s HI Hs k Hk; [auto |].
  rewrite run_cons in Hk. cbn [fst] in Hk.
  apply (IH (fst (step s i))); [by apply Inv_step | | done].
  intros k' Hk'.
  destruct (step_events s i) as [(e & t & _ & Ht & Heq) | [l Hpre]].
  - rewrite Heq in Hk'. apply elem_of_app in Hk' as [Hk' | Hk']; [auto |].
    apply list_elem_of_singleton in Hk' as ->. by apply Hclose.
  - apply Hs. rewrite Hpre. apply elem_of_app. by left.
Qed.

Lemma printable_shape (k : list N) :
  printable k = true → length k = 1%nat ∨ k = js "Space".
Proof.
  unfold printable. intros H. apply orb_true_iff in H as [H | H].
  - left. by apply Nat.eqb_eq.
  - right. by apply bool_decide_eq_true in H.
Qed.

Lemma handleChange_case (s : State) (v : list N) :
  handleChange s v = s ∨
  (isRecording s = true ∧ handleChange s v = set_text s v).
Proof. unfold handleChange. destruct (isRecording s); auto. Qed.

Lemma origin_step (s : State) (i : Z * Input) :
  (isRecording s = true ∨ isCompleted s = true →
   is_Some (sessionStartTime s)) →
  isRecording (fst (step s i)) = true ∨ isCompleted (fst (step s i)) = true →
  is_Some (sessionStartTime (fst (step s i))).
Proof.
  intros Hs. destruct i as [now [e | e | v | | v | u]]; simpl.
  - destruct (handleKeyDown_case s e now)
      as [Hr Hc | Hr Hc | Hr He | Hr _ _ | Hr _ _ _ | Hr _ _ _ _ _ _];
      simpl; try (intros _; apply Hs; auto; fail).
    unfold startSession.
    destruct (sessionStartTime s) as [t|] eqn:Ht; simpl.
    + destruct (t =? 0); simpl; intros _; [by eexists |].
      rewrite Ht. by eexists.
    + intros _. by eexists.
  - destruct (handleKeyUp_case s e now) as [Heq | (t & Hr & _ & _ & Heq)];
      rewrite Heq; simpl; exact Hs.
  - destruct (handleChange_case s v) as [Heq | [_ Heq]]; rewrite Heq;
      exact Hs.
  - intros [? | ?]; done.
  - unfold setView. case_decide; [exact Hs |].
    destruct v; simpl; try exact Hs; intros [? | ?]; done.
  - exact Hs.
Qed.

Lemma origin_run (tr : list (Z * Input)) :
  ∀ s, (isRecording s = true ∨ isCompleted s = true →
        is_Some (sessionStartTime s)) →
       isRecording (fst (run s tr)) = true
       ∨ isCompleted (fst (run s tr)) = true →
       is_Some (sessionStartTime (fst (run s tr))).
Proof.
  induction tr as [|i tr IH]; intros s Hs; [done |].
  rewrite run_cons. cbn [fst]. apply IH. by apply origin_step.
Qed.

Lemma idle_text_step (s : State) (i : Z * Input) :
  (isRecording s = false → isCompleted s = false → text s = []) →
  isRecording (fst (step s i)) = false →
  isCompleted (fst (step s i)) = false → text (fst (step s i)) = [].
Proof.
  intros Hs. destruct i as [now [e | e | v | | v | u]]; simpl.
  - destruct (handleKeyDown_case s e now)
      as [Hr Hc | Hr Hc | Hr He | Hr _ _ | Hr _ _ _ | Hr _ _ _ _ _ _];
      simpl; try exact Hs; try congruence.
    unfold startSession. destruct (falsy_time _); simpl; [done | exact Hs].
  - destruct (handleKeyUp_case s e now) as [Heq | (t & Hr & _ & _ & Heq)];
      rewrite Heq; simpl; [exact Hs | congruence].
  - destruct (handleChange_case s v) as [Heq | [Hr Heq]]; rewrite Heq;
      [exact Hs | simpl; congruence].
  - done.
  - unfold setView. case_decide; [exact Hs |].
    destruct v; simpl; first [exact Hs | done].
  - exact Hs.
Qed.

Lemma idle_text_run (tr : list (Z * Input)) :
  ∀ s, (isRecording s = false → isCompleted s = false → text s = []) →
       isRecording (fst (run s tr)) = false →
       isCompleted (fst (run s tr)) = false → text (fst (run s tr)) = [].
Proof.
  induction tr as [|i tr IH]; intros s Hs; [done |].
  rewrite run_cons. cbn [fst]. apply IH. by apply idle_text_step.
Qed.

(** ** Extras on the recorder *)

(** X1: in a reachable Idle state, a key-down of any key only starts the
    session: the recorder becomes Recording with the clock value as session
    start, nothing is buffered or posted, and therefore a following key-up
    (of that or any other key) records no event: the first key of an attempt
    is never timed. *)
Theorem X1_first_keydown_only_starts
    (tr : list (Z * Input)) (e e' : KeyEvent) (now now' : Z) :
  isRecording (final tr) = false → isCompleted (final tr) = false →
  handleKeyDown (final tr) e now
    = (mkState (view (final tr)) (username (final tr))
               true false [] [] ∅ (Some now), None) ∧
  handleKeyUp (fst (handleKeyDown (final tr) e now)) e' now'
    = fst (handleKeyDown (final tr) e now).
Proof.
  intros Hr Hc.
  assert (Hkd : handleKeyDown (final tr) e now
                = (mkState (view (final tr)) (username (final tr))
                           true false [] [] ∅ (Some now), None)).
  { unfold handleKeyDown. rewrite Hr, Hc. simpl.
    by rewrite (startSession_idle _ _ (Inv_final tr) Hr Hc). }
  split; [done |]. rewrite Hkd. simpl.
  destruct (handleKeyUp_case
              (mkState (view (final tr)) (username (final tr))
                       true false [] [] ∅ (Some now)) e' now')
    as [-> | (t & _ & _ & Ht & _)]; [done |].
  simpl in Ht. by rewrite lookup_empty in Ht.
Qed.

Lemma X1_witness :
  isRecording (final sample_idle) = false ∧
  isCompleted (final sample_idle) = false ∧
  keystrokeData
    (handleKeyUp (fst (handleKeyDown (final sample_idle) (plain "a") 1000))
       (plain "a") 1080) = [].
Proof.
  split; [reflexivity | split; [reflexivity |]].
  destruct (X1_first_keydown_only_starts sample_idle (plain "a") (plain "a")
              1000 1080 eq_refl eq_refl) as [Hkd ->].
  rewrite Hkd. reflexivity.
Defined.

(** X2: a request is posted only by an Enter key-down processed while
    recording with at least one event; it goes to [/api/verify] in the test
    view and to [/api/sessions] otherwise, carries the user name, the text
    and the events of that moment, and leaves the recorder Completed. *)
Theorem X2_post_only_on_enter (s : State) (i : Z * Input) (p : Payload) :
  snd (step s i) = Some p →
  ∃ e, snd i = KeyDown e ∧ key e = js "Enter" ∧
       isRecording s = true ∧ keystrokeData s ≠ [] ∧
       p = mkPayload
             (if decide (view s = test) then api_verify else api_sessions)
             (username s) (text s) (fst i) (keystrokeData s) ∧
       isRecording (fst (step s i)) = false ∧
       isCompleted (fst (step s i)) = true.
Proof.
  destruct i as [now [e | e | v | | v | u]]; simpl; try done.
  intros Hp. exists e.
  destruct (handleKeyDown_case s e now)
    as [Hr Hc | Hr Hc | Hr He | Hr _ _ | Hr _ _ _ | Hr _ _ _ _ _ _];
    simpl in *; try done.
  unfold submitData in Hp.
  destruct (keystrokeData s) as [|k l] eqn:Hks; simpl in Hp; [done |].
  injection Hp as <-. by simpl.
Qed.

Lemma X2_witness :
  ∃ p, snd (step (final sample_pending) (1400, KeyDown (plain "Enter")))
       = Some p ∧
       endpoint p = api_sessions ∧ userId p = js "alice" ∧
       length (keystrokes p) = 2%nat.
Proof.
  eexists. split; [reflexivity |].
  destruct (X2_post_only_on_enter (final sample_pending)
              (1400, KeyDown (plain "Enter")) _ eq_refl)
    as (e & _ & _ & _ & _ & Hp & _).
  split; [| split]; reflexivity.
Defined.

Lemma step_posts_completes (s : State) (i : Z * Input) (p : Payload) :
  snd (step s i) = Some p →
  isRecording (fst (step s i)) = false ∧ isCompleted (fst (step s i)) = true.
Proof.
  destruct i as [now [e | e | v | | v | u]]; simpl; try done.
  destruct (handleKeyDown_case s e now)
    as [Hr Hc | Hr Hc | Hr He | Hr _ _ | Hr _ _ _ | Hr _ _ _ _ _ _];
    simpl; done.
Qed.

(** X3: whatever the state, a sequence of key events of the text area posts
    at most one request: after the one Enter that posts, the attempt is
    Completed and ignores the keyboard. *)
Theorem X3_at_most_one_post (tr : list (Z * Input)) :
  ∀ s, Forall (λ i, is_key_input (snd i) = true) tr →
       (length (snd (run s tr)) ≤ 1)%nat.
Proof.
  induction tr as [|i tr IH]; intros s Htr; [simpl; lia |].
  apply Forall_cons in Htr as [Hi Htr].
  rewrite run_cons. cbn [snd]. rewrite length_app.
  destruct (snd (step s i)) as [p|] eqn:Hp; simpl.
  - destruct (step_posts_completes s i p Hp) as [Hr Hc].
    by rewrite (completed_run _ tr Hr Hc Htr).
  - by apply IH.
Qed.

Lemma X3_witness :
  Nat.le
    (length
       (snd (run (final sample_typing)
               [ (1300, KeyDown (plain "Enter")); (1400, KeyDown (plain "a"));
                 (1500, KeyUp (plain "a")); (1600, KeyDown (plain "Enter")) ])))
    1.
Proof.
  apply X3_at_most_one_post. repeat constructor.
Defined.

(** X4: every event the recorder holds or posts is well formed, whatever
    the clock does: its dwell time is its release offset minus its press
    offset, its key is one code unit other than the blank or the word
    ["Space"] (a blank is stored as ["Space"]), and its key code is a decimal
    numeral. *)
Theorem X4_events_well_formed (tr : list (Z * Input)) :
  (∀ k, k ∈ keystrokeData (final tr) →
        dwellTime k = releaseTime k - pressTime k ∧
        k_key k ≠ js " " ∧
        (length (k_key k) = 1%nat ∨ k_key k = js "Space") ∧
        ∃ n, k_keyCode k = String_of_number n) ∧
  (∀ p k, p ∈ snd (run initialState tr) → k ∈ keystrokes p →
        dwellTime k = releaseTime k - pressTime k ∧
        k_key k ≠ js " " ∧
        (length (k_key k) = 1%nat ∨ k_key k = js "Space") ∧
        ∃ n, k_keyCode k = String_of_number n).
Proof.
  assert (Hall : ∀ tr' k, k ∈ keystrokeData (final tr') →
            dwellTime k = releaseTime k - pressTime k ∧
            k_key k ≠ js " " ∧
            (length (k_key k) = 1%nat ∨ k_key k = js "Space") ∧
            ∃ n, k_keyCode k = String_of_number n).
  { intros tr'. apply events_invariant; [| apply Inv_initial |].
    - intros s e now t HI Ht. simpl. split; [done |].
      pose proof (printable_shape _ (inv_printable s HI _ _ Ht)) as Hshape.
      case_bool_decide as Hsp; split; [done | | done |]; split; eauto.
    - intros k Hk. by apply elem_of_nil in Hk. }
  split; [apply Hall |].
  intros p k Hp Hk.
  destruct (posted_reachable tr p Hp) as (tr1 & tr2 & _ & Heq).
  rewrite Heq in Hk. by apply (Hall tr1).
Qed.

Lemma X4_witness :
  ∃ k, keystrokeData (final sample_typing) !! 1%nat = Some k ∧
       dwellTime k = releaseTime k - pressTime k ∧ k_key k ≠ js " ".
Proof.
  eexists. split; [reflexivity |].
  refine (let H := proj1 (X4_events_well_formed sample_typing) _ _ in
          conj (proj1 H) (proj1 (proj2 H))).
  apply list_elem_of_lookup. by exists 1%nat.
Defined.

(** X5: every reachable state is in exactly one of the three states of the
    recorder: Idle with no session start, no event, no pending press and no
    text; Recording, not completed, with a session start; or Completed, not
    recording, with the session start kept. *)
Theorem X5_phase_invariant (tr : list (Z * Input)) :
  match phase (final tr) with
  | Idle =>
      isRecording (final tr) = false ∧ isCompleted (final tr) = false ∧
      sessionStartTime (final tr) = None ∧ keystrokeData (final tr) = [] ∧
      keyDownTimes (final tr) = ∅ ∧ text (final tr) = []
  | Recording =>
      isRecording (final tr) = true ∧ isCompleted (final tr) = false ∧
      is_Some (sessionStartTime (final tr))
  | Completed =>
      isRecording (final tr) = false ∧ isCompleted (final tr) = true ∧
      is_Some (sessionStartTime (final tr))
  end.
Proof.
  pose proof (Inv_final tr) as HI.
  assert (Horigin : isRecording (final tr) = true
                    ∨ isCompleted (final tr) = true →
                    is_Some (sessionStartTime (final tr))).
  { apply origin_run. intros [? | ?]; done. }
  assert (Htext : isRecording (final tr) = false →
                  isCompleted (final tr) = false → text (final tr) = []).
  { by apply idle_text_run. }
  unfold phase.
  destruct (isRecording (final tr)) eqn:Hr.
  - split; [done |]. split; [| auto].
    destruct (isCompleted (final tr)) eqn:Hc; [| done].
    pose proof (inv_excl _ HI Hc). congruence.
  - destruct (isCompleted (final tr)) eqn:Hc.
    + auto.
    + destruct (inv_idle _ HI Hr Hc) as (Hm & Ht & Hk). auto 10.
Qed.

Lemma handleKeyUp_closes (s : State) (e : KeyEvent) (now t : Z) :
  isRecording s = true → printable (key e) = true →
  keyDownTimes s !! key e = Some t →
  handleKeyUp s e now
    = mkState (view s) (username s) (isRecording s) (isCompleted s)
              (keystrokeData s ++ [closeEvent s e now t]) (text s)
              (delete (key e) (keyDownTimes s)) (sessionStartTime s).
Proof.
  intros Hr Hpr Ht. unfold handleKeyUp. rewrite Hr, Ht. simpl.
  assert (Hgate : negb (length (key e) =? 1)%nat
                  && negb (bool_decide (key e = js "Space")) = false).
  { unfold printable in Hpr. apply orb_true_iff in Hpr as [-> | ->];
      [done | apply andb_false_r]. }
  by rewrite Hgate.
Qed.

Lemma set_keyDownTimes_id (s : State) :
  set_keyDownTimes s (keyDownTimes s) = s.
Proof. by destruct s. Qed.

(** X6: while recording, a Backspace key-down right after a key-up that
    closed an event takes that event off again, so that the event sequence
    is as before the key-up; the press of the key is not buffered again. *)
Theorem X6_backspace_undoes_keyup
    (s : State) (e b : KeyEvent) (now now' t : Z) :
  isRecording s = true → printable (key e) = true →
  keyDownTimes s !! key e = Some t → key b = js "Backspace" →
  keystrokeData (fst (handleKeyDown (handleKeyUp s e now) b now'))
    = keystrokeData s ∧
  keyDownTimes (fst (handleKeyDown (handleKeyUp s e now) b now'))
    = delete (key e) (keyDownTimes s) ∧
  snd (handleKeyDown (handleKeyUp s e now) b now') = None.
Proof.
  intros Hr Hpr Ht Hb.
  rewrite (handleKeyUp_closes s e now t Hr Hpr Ht).
  unfold handleKeyDown. simpl. rewrite Hr, Hb. simpl.
  rewrite length_app. simpl.
  replace (0 <? length (keystrokeData s) + 1)%nat with true
    by (symmetry; apply Nat.ltb_lt; lia).
  simpl. by rewrite removelast_snoc.
Qed.

Lemma X6_witness :
  keyDownTimes (final sample_pending) !! js "c" = Some 300 ∧
  keystrokeData
    (fst (handleKeyDown (handleKeyUp (final sample_pending) (plain "c") 1390)
            (plain "Backspace") 1450))
    = keystrokeData (final sample_pending).
Proof.
  split; [reflexivity |].
  exact (proj1 (X6_backspace_undoes_keyup (final sample_pending) (plain "c")
                  (plain "Backspace") 1390 1450 300
                  eq_refl eq_refl eq_refl eq_refl)).
Defined.

(** X7: while recording, a key-down of a printable key that is neither
    suppressed nor an auto-repeat changes nothing but the buffer entry of its
    key, and the entry keeps the press time it had unless the key had none or
    had press time 0: the test [!keyDownTimes.current[key]] takes an entry of
    0 for a missing one and overwrites it with the new offset. *)
Theorem X7_press_time_kept_unless_zero (s : State) (e : KeyEvent) (now : Z) :
  isRecording s = true → suppressed e = false →
  printable (key e) = true → repeat e = false →
  handleKeyDown s e now
    = (set_keyDownTimes s
         (<[key e :=
              match keyDownTimes s !! key e with
              | Some t => if t =? 0 then offset s now else t
              | None => offset s now
              end]> (keyDownTimes s)), None).
Proof.
  intros Hr Hsup Hpr Hrep.
  destruct (handleKeyDown_case s e now)
    as [Hr' _ | Hr' _ | _ He | _ _ Hb | _ _ _ Hign | _ _ _ _ _ _ Hf];
    try congruence.
  - by rewrite He, printable_Enter in Hpr.
  - by rewrite Hb, printable_Backspace in Hpr.
  - destruct Hign as [? | [? | [? | Hf]]]; try congruence.
    destruct (keyDownTimes s !! key e) as [t|] eqn:Ht; [| done].
    simpl in Hf. rewrite Hf, insert_id by done.
    by rewrite set_keyDownTimes_id.
  - destruct (keyDownTimes s !! key e) as [t|] eqn:Ht; [| done].
    simpl in Hf. by rewrite Hf.
Qed.

Lemma X7_witness :
  keyDownTimes (final sample_zero_press) !! js "a" = Some 0 ∧
  keyDownTimes
    (fst (handleKeyDown (final sample_zero_press) (plain "a") 1500))
    !! js "a" = Some 500 ∧
  keyDownTimes (final sample_pending) !! js "c" = Some 300 ∧
  keyDownTimes
    (fst (handleKeyDown (final sample_pending) (plain "c") 1500))
    !! js "c" = Some 300.
Proof.
  split; [reflexivity | split; [| split; [reflexivity |]]].
  - rewrite (X7_press_time_kept_unless_zero (final sample_zero_press)
               (plain "a") 1500 eq_refl eq_refl eq_refl eq_refl).
    reflexivity.
  - rewrite (X7_press_time_kept_unless_zero (final sample_pending)
               (plain "c") 1500 eq_refl eq_refl eq_refl eq_refl).
    reflexivity.
Defined.

(** X8: a key event never touches the pending press of another key: a
    key-up leaves the buffer entries of all other keys as they are in every
    state, and so does a key-down once the session has started. *)
Theorem X8_other_keys_untouched
    (s : State) (e : KeyEvent) (now : Z) (k : list N) :
  k ≠ key e →
  keyDownTimes (handleKeyUp s e now) !! k = keyDownTimes s !! k ∧
  (isRecording s = true ∨ isCompleted s = true →
   keyDownTimes (fst (handleKeyDown s e now)) !! k = keyDownTimes s !! k).
Proof.
  intros Hne. split.
  - destruct (handleKeyUp_case s e now) as [-> | (t & _ & _ & _ & ->)];
      [done |].
    simpl. by rewrite lookup_delete_ne.
  - intros Hrc.
    destruct (handleKeyDown_case s e now)
      as [Hr Hc | Hr Hc | Hr He | Hr _ _ | Hr _ _ _ | Hr _ _ _ _ _ _];
      simpl; try done.
    + destruct Hrc; congruence.
    + by rewrite lookup_insert_ne.
Qed.

Lemma X8_witness :
  keyDownTimes
    (handleKeyUp (final (sample_pending ++ [(1350, KeyDown (plain "d"))]))
       (plain "d") 1400) !! js "c" = Some 300.
Proof.
  assert (Hne : js "c" ≠ key (plain "d")) by discriminate.
  rewrite (proj1 (X8_other_keys_untouched
                    (final (sample_pending ++ [(1350, KeyDown (plain "d"))]))
                    (plain "d") 1400 (js "c") Hne)).
  reflexivity.
Defined.

Lemma step_budget (s : State) (i : Z * Input) :
  (length (keystrokeData (fst (step s i)))
   + size (keyDownTimes (fst (step s i)))
   ≤ length (keystrokeData s) + size (keyDownTimes s) + presses [i])%nat.
Proof.
  destruct i as [now [e | e | v | | v | u]]; simpl.
  - destruct (handleKeyDown_case s e now)
      as [Hr Hc | Hr Hc | Hr He | Hr _ _ | Hr _ _ _ | Hr _ _ _ _ Hrep _];
      simpl; try lia.
    + unfold startSession. destruct (falsy_time _); simpl; [| lia].
      rewrite map_size_empty. lia.
    + destruct (snoc_or_nil (keystrokeData s)) as [-> | (l & x & ->)];
        [simpl; lia |].
      rewrite removelast_snoc, length_app. lia.
    + rewrite Hrep, map_size_insert.
      destruct (keyDownTimes s !! key e); simpl; lia.
  - destruct (handleKeyUp_case s e now) as [-> | (t & _ & _ & Ht & ->)];
      [lia |].
    simpl. rewrite length_app, map_size_delete, Ht. simpl.
    assert (size (keyDownTimes s) ≠ 0%nat)
      by (by apply (map_size_ne_0_lookup_2 _ (key e))).
    lia.
  - destruct (handleChange_case s v) as [-> | [_ ->]]; simpl; lia.
  - rewrite map_size_empty. lia.
  - unfold setView. case_decide; [lia |].
    destruct v; simpl; rewrite ?map_size_empty; lia.
  - lia.
Qed.

Lemma presses_cons (i : Z * Input) (tr : list (Z * Input)) :
  presses (i :: tr) = (presses [i] + presses tr)%nat.
Proof. destruct i as [now [e | e | v | | v | u]]; simpl; lia. Qed.

Lemma run_budget (tr : list (Z * Input)) :
  ∀ s, (length (keystrokeData (fst (run s tr)))
        + size (keyDownTimes (fst (run s tr)))
        ≤ length (keystrokeData s) + size (keyDownTimes s) + presses tr)%nat.
Proof.
  induction tr as [|i tr IH]; intros s; [simpl; lia |].
  rewrite run_cons, presses_cons. cbn [fst].
  pose proof (IH (fst (step s i))). pose proof (step_budget s i). lia.
Qed.

(** X9: in every reachable state, the events recorded and the presses still
    pending together never outnumber the key-downs received that were not
    auto-repeats: every event and every pending press is paid for by a key
    press of its own. *)
Theorem X9_events_bounded_by_presses (tr : list (Z * Input)) :
  (length (keystrokeData (final tr)) + size (keyDownTimes (final tr))
   ≤ presses tr)%nat.
Proof.
  pose proof (run_budget tr initialState) as H. simpl in H.
  rewrite map_size_empty in H. unfold final. lia.
Qed.

Lemma origin_fixed_step (s : State) (i : Z * Input) :
  is_key_input (snd i) = true →
  isRecording s = true ∨ isCompleted s = true →
  sessionStartTime (fst (step s i)) = sessionStartTime s ∧
  view (fst (step s i)) = view s ∧
  username (fst (step s i)) = username s ∧
  (isRecording (fst (step s i)) = true ∨ isCompleted (fst (step s i)) = true).
Proof.
  intros Hi Hrc. destruct i as [now [e | e | v | | v | u]]; try done; simpl.
  - destruct (handleKeyDown_case s e now)
      as [Hr Hc | Hr Hc | Hr He | Hr _ _ | Hr _ _ _ | Hr _ _ _ _ _ _];
      simpl; auto.
    destruct Hrc; congruence.
  - destruct (handleKeyUp_case s e now) as [-> | (t & Hr & _ & _ & ->)];
      simpl; auto.
  - destruct (handleChange_case s v) as [-> | [Hr ->]]; simpl; auto.
Qed.

(** X10: once a session has started, no key event of the text area changes
    its start time, the view or the user name, and none takes the recorder
    back to Idle: all offsets of an attempt are measured from one origin. *)
Theorem X10_session_origin_fixed (tr : list (Z * Input)) :
  ∀ s, Forall (λ i, is_key_input (snd i) = true) tr →
       isRecording s = true ∨ isCompleted s = true →
       sessionStartTime (fst (run s tr)) = sessionStartTime s ∧
       view (fst (run s tr)) = view s ∧
       username (fst (run s tr)) = username s ∧
       (isRecording (fst (run s tr)) = true
        ∨ isCompleted (fst (run s tr)) = true).
Proof.
  induction tr as [|i tr IH]; intros s Htr Hrc; [done |].
  apply Forall_cons in Htr as [Hi Htr].
  destruct (origin_fixed_step s i Hi Hrc) as (Ht & Hv & Hu & Hrc').
  rewrite run_cons. cbn [fst].
  destruct (IH _ Htr Hrc') as (Ht' & Hv' & Hu' & Hrc'').
  rewrite Ht', Hv', Hu'. auto.
Qed.

Lemma X10_witness :
  sessionStartTime
    (fst (run (final sample_typing)
            [ (1300, KeyDown (plain "c")); (1350, KeyUp (plain "c"));
              (1400, KeyDown (plain "Enter")); (1500, KeyDown (plain "d")) ]))
  = Some 1000.
Proof.
  assert (Hkeys : Forall (λ i : Z * Input, is_key_input (snd i) = true)
            [ (1300, KeyDown (plain "c")); (1350, KeyUp (plain "c"));
              (1400, KeyDown (plain "Enter")); (1500, KeyDown (plain "d")) ])
    by repeat constructor.
  rewrite (proj1 (X10_session_origin_fixed _ (final sample_typing) Hkeys
                    (or_introl eq_refl))).
  reflexivity.
Defined.

(** * Properties of [renderText] *)

Lemma renderText_lookup (targetText text : list N) (i : nat) :
  renderText targetText text !! i = renderSpan text i <$> targetText !! i.
Proof. apply list_lookup_imap. Qed.

(** The class of the span at position [i], by the position of [i] relative
    to what was typed. *)
Lemma renderSpan_class (text : list N) (i : nat) (c : N) :
  ((i < length text)%nat ∧ text !! i = Some c ∧
   correct_class (className (renderSpan text i c))) ∨
  ((i < length text)%nat ∧ text !! i ≠ Some c ∧
   incorrect_class (className (renderSpan text i c))) ∨
  (i = length text ∧ cursor_class (className (renderSpan text i c))) ∨
  ((length text < i)%nat ∧ untouched_class (className (renderSpan text i c))).
Proof.
  unfold renderSpan, correct_class, incorrect_class, cursor_class,
    untouched_class.
  destruct (i <? length text)%nat eqn:Hlt.
  - apply Nat.ltb_lt in Hlt.
    destruct (decide (text !! i = Some c)) as [Heq | Hne].
    + rewrite (bool_decide_eq_true_2 _ Heq).
      left. split; [done | split; [done |]].
      destruct (c =? 32)%N; [by right | by left].
    + rewrite (bool_decide_eq_false_2 _ Hne).
      right; left. split; [done | split; [done |]].
      destruct (c =? 32)%N; [by right | by left].
  - apply Nat.ltb_ge in Hlt. destruct (i =? length text)%nat eqn:Heq.
    + apply Nat.eqb_eq in Heq. right; right; left. split; [done |].
      destruct (c =? 32)%N; [by right | by left].
    + apply Nat.eqb_neq in Heq. right; right; right.
      split; [lia |]. destruct (c =? 32)%N; [by right | by left].
Qed.

Lemma classes_disjoint (c : list N) :
  (correct_class c → ¬ incorrect_class c ∧ ¬ cursor_class c
                     ∧ ¬ untouched_class c) ∧
  (incorrect_class c → ¬ cursor_class c ∧ ¬ untouched_class c) ∧
  (cursor_class c → ¬ untouched_class c).
Proof.
  unfold correct_class, incorrect_class, cursor_class, untouched_class.
  split; [| split]; intros [-> | ->]; repeat split;
    intros [Heq | Heq]; discriminate Heq.
Qed.

(** X11: whatever was typed, [renderText] returns one span per character of
    the target text, in order, each keyed by its position and showing the
    target's character there; typed characters beyond the end of the target
    are not rendered. *)
Theorem X11_renderText_shows_target (targetText text : list N) :
  length (renderText targetText text) = length targetText ∧
  displayChar <$> renderText targetText text = targetText ∧
  span_key <$> renderText targetText text = seq 0 (length targetText).
Proof.
  split; [apply length_imap |]. split.
  - apply list_eq. intros i.
    rewrite list_lookup_fmap, renderText_lookup.
    destruct (targetText !! i) as [c|]; [simpl | done].
    unfold renderSpan. destruct (c =? 32)%N eqn:Hc; simpl; [| done].
    apply N.eqb_eq in Hc. by rewrite Hc.
  - apply list_eq. intros i.
    rewrite list_lookup_fmap, renderText_lookup.
    destruct (targetText !! i) as [c|] eqn:Hi; simpl.
    + apply lookup_lt_Some in Hi.
      rewrite lookup_seq_lt by done.
      unfold renderSpan. by destruct (c =? 32)%N.
    + apply lookup_ge_None in Hi. symmetry. apply lookup_seq_ge. lia.
Qed.

(** X12: the span at position [i] carries the cursor class exactly when [i]
    is the number of characters typed: there is one cursor while the text is
    shorter than the target and none once it is as long or longer. *)
Theorem X12_renderText_cursor
    (targetText text : list N) (i : nat) (sp : Span) :
  renderText targetText text !! i = Some sp →
  (cursor_class (className sp) ↔ i = length text) ∧
  ((length targetText ≤ length text)%nat → ¬ cursor_class (className sp)).
Proof.
  intros Hsp. rewrite renderText_lookup in Hsp.
  destruct (targetText !! i) as [c|] eqn:Hi; [| done].
  injection Hsp as <-. apply lookup_lt_Some in Hi.
  pose proof (classes_disjoint (className (renderSpan text i c)))
    as (Hc & Hi' & Hcu).
  assert (Hiff : cursor_class (className (renderSpan text i c))
                 ↔ i = length text).
  { destruct (renderSpan_class text i c)
      as [(Hlt & _ & Hcl) | [(Hlt & _ & Hcl) | [(Heq & Hcl) | (Hgt & Hcl)]]].
    - split; [intros Hcur; by destruct (Hc Hcl) as (_ & ? & _) | lia].
    - split; [intros Hcur; by destruct (Hi' Hcl) as (? & _) | lia].
    - done.
    - split; [intros Hcur; by destruct (Hcu Hcur) | lia]. }
  split; [done |]. intros Hlen Hcur. apply Hiff in Hcur. lia.
Qed.

Lemma X12_witness :
  ∃ sp, renderText (js "abc") (js "a") !! 1%nat = Some sp ∧
        cursor_class (className sp).
Proof.
  eexists. split; [reflexivity |].
  apply (proj1 (X12_renderText_cursor (js "abc") (js "a") 1 _ eq_refl)).
  reflexivity.
Defined.

(** X13: the span at position [i] is marked correct exactly when a character
    was typed at [i] and equals the target's, and incorrect exactly when a
    character was typed at [i] and differs; so typing a prefix of the target
    marks no span incorrect, and typing the whole target marks every span
    correct. *)
Theorem X13_renderText_marks
    (targetText text : list N) (i : nat) (sp : Span) :
  renderText targetText text !! i = Some sp →
  (correct_class (className sp)
   ↔ (i < length text)%nat ∧ text !! i = targetText !! i) ∧
  (incorrect_class (className sp)
   ↔ (i < length text)%nat ∧ text !! i ≠ targetText !! i) ∧
  (text `prefix_of` targetText → ¬ incorrect_class (className sp)) ∧
  (text = targetText → correct_class (className sp)).
Proof.
  intros Hsp. rewrite renderText_lookup in Hsp.
  destruct (targetText !! i) as [c|] eqn:Hi; [| done].
  injection Hsp as <-.
  pose proof (classes_disjoint (className (renderSpan text i c)))
    as (Hc & Hi' & Hcu).
  assert (Hcor : correct_class (className (renderSpan text i c))
                 ↔ (i < length text)%nat ∧ text !! i = Some c).
  { destruct (renderSpan_class text i c)
      as [(Hlt & Heq & Hcl) | [(Hlt & Hne & Hcl)
          | [(Heq & Hcl) | (Hgt & Hcl)]]].
    - done.
    - split; [intros H; by destruct (Hc H) as (? & _) | by intros [_ ?]].
    - split; [intros H; by destruct (Hc H) as (_ & ? & _) | lia].
    - split; [intros H; by destruct (Hc H) as (_ & _ & ?) | lia]. }
  assert (Hinc : incorrect_class (className (renderSpan text i c))
                 ↔ (i < length text)%nat ∧ text !! i ≠ Some c).
  { destruct (renderSpan_class text i c)
      as [(Hlt & Heq & Hcl) | [(Hlt & Hne & Hcl)
          | [(Heq & Hcl) | (Hgt & Hcl)]]].
    - split; [intros H; by destruct (Hc Hcl) as (? & _) | by intros [_ ?]].
    - done.
    - split; [intros H; by destruct (Hi' H) as (? & _) | lia].
    - split; [intros H; by destruct (Hi' H) as (_ & ?) | lia]. }
  split; [done | split; [done | split]].
  - intros [l ->] Hcl. apply Hinc in Hcl as [Hlt Hne].
    rewrite lookup_app_l in Hi by done. done.
  - intros ->. apply Hcor. split; [by apply lookup_lt_Some in Hi | done].
Qed.

Lemma X13_witness :
  ∃ sp, renderText (js "a b") (js "axb") !! 1%nat = Some sp ∧
        className sp = js "incorrect space-char" ∧
        incorrect_class (className sp).
Proof.
  eexists. split; [reflexivity |]. split; [reflexivity |].
  apply (proj1 (proj2 (X13_renderText_marks (js "a b") (js "axb") 1 _
                         eq_refl))).
  split; [simpl; lia | discriminate].
Defined.

(** * Offsets under a clock that never decreases *)

Lemma OffsetInv_fields (c c' : Z) (s s' : State) :
  isRecording s' = isRecording s → isCompleted s' = isCompleted s →
  keystrokeData s' = keystrokeData s → keyDownTimes s' = keyDownTimes s →
  sessionStartTime s' = sessionStartTime s → c ≤ c' →
  OffsetInv c s → OffsetInv c' s'.
Proof.
  intros Hr Hc Hk Hm Ht Hle [Ho Hs Hp He].
  split; rewrite ?Hr, ?Hc, ?Hk, ?Hm, ?Ht; auto.
  intros st Hst. specialize (Hs st Hst). lia.
Qed.

Lemma OffsetInv_fresh (c : Z) (v : View) (u : list N) (r : bool) (o : option Z) :
  (r = true → is_Some o) → (∀ st, o = Some st → st ≤ c) →
  OffsetInv c (mkState v u r false [] [] ∅ o).
Proof.
  intros Ho Hs. split; simpl.
  - intros [? | ?]; [auto | done].
  - done.
  - intros k t Hk. by rewrite lookup_empty in Hk.
  - intros ev Hev. by apply elem_of_nil in Hev.
Qed.

Lemma OffsetInv_step (c now : Z) (s : State) (i : Input) :
  Inv s → OffsetInv c s → c ≤ now →
  OffsetInv now (fst (step s (now, i))).
Proof.
  intros HI HO Hle. destruct i as [e | e | v | | v | u]; simpl.
  - destruct (handleKeyDown_case s e now)
      as [Hr Hc | Hr Hc | Hr He | Hr _ _ | Hr _ _ _ | Hr _ _ _ _ _ _]; simpl.
    + rewrite startSession_idle by done.
      apply OffsetInv_fresh; [by eexists | intros st [= <-]; lia].
    + by apply (OffsetInv_fields c now s).
    + destruct HO as [Ho Hs Hp He']. split; simpl.
      * intros _. apply Ho. auto.
      * intros st Hst. specialize (Hs st Hst). lia.
      * exact Hp.
      * exact He'.
    + destruct HO as [Ho Hs Hp He']. split; simpl.
      * exact Ho.
      * intros st Hst. specialize (Hs st Hst). lia.
      * exact Hp.
      * intros ev Hev. apply He'. by apply elem_of_removelast.
    + by apply (OffsetInv_fields c now s).
    + destruct HO as [Ho Hs Hp He']. split; simpl.
      * exact Ho.
      * intros st Hst. specialize (Hs st Hst). lia.
      * intros k t Hk.
        apply lookup_insert_Some in Hk as [[_ <-] | [_ Hk]]; [| eauto].
        destruct (Ho (or_introl Hr)) as [st Hst].
        specialize (Hs st Hst). unfold offset. rewrite Hst. simpl. lia.
      * exact He'.
  - destruct (handleKeyUp_case s e now) as [-> | (t & Hr & _ & Ht & ->)].
    { by apply (OffsetInv_fields c now s). }
    destruct HO as [Ho Hs Hp He']. split; simpl.
    + exact Ho.
    + intros st Hst. specialize (Hs st Hst). lia.
    + intros k t' Hk. apply lookup_delete_Some in Hk as [_ Hk]. eauto.
    + intros ev Hev. apply elem_of_app in Hev as [Hev | Hev]; [auto |].
      apply list_elem_of_singleton in Hev as ->. simpl. eauto.
  - destruct (handleChange_case s v) as [-> | [_ ->]];
      by apply (OffsetInv_fields c now s).
  - by apply OffsetInv_fresh.
  - unfold setView. case_decide; [by apply (OffsetInv_fields c now s) |].
    destruct v; try by apply OffsetInv_fresh.
    by apply (OffsetInv_fields c now s).
  - by apply (OffsetInv_fields c now s).
Qed.

Lemma OffsetInv_run (tr : list (Z * Input)) :
  ∀ (c : Z) (s : State),
    Inv s → OffsetInv c s → monotone_from c tr = true →
    ∃ c', OffsetInv c' (fst (run s tr)).
Proof.
  induction tr as [|[now i] tr IH]; intros c s HI HO Hm.
  - by exists c.
  - simpl in Hm. apply andb_true_iff in Hm as [Hle Hm].
    apply Z.leb_le in Hle.
    rewrite run_cons. cbn [fst]. apply (IH now).
    + by apply Inv_step.
    + by apply (OffsetInv_step c).
    + done.
Qed.

Lemma OffsetInv_final (tr : list (Z * Input)) :
  monotone tr = true → ∃ c, OffsetInv c (final tr).
Proof.
  intros Hm. destruct tr as [|[now i] tr].
  - exists 0. by apply OffsetInv_fresh.
  - apply (OffsetInv_run _ now);
      [apply Inv_initial | by apply OffsetInv_fresh |].
    simpl in *. by rewrite Z.leb_refl.
Qed.

(** X14: under a clock that never decreases, every press offset and every
    release offset the recorder holds or posts is non-negative: offsets are
    measured from a session start that lies in the past. *)
Theorem X14_offsets_nonnegative (tr : list (Z * Input)) :
  monotone tr = true →
  (∀ k, k ∈ keystrokeData (final tr) →
        0 ≤ pressTime k ∧ 0 ≤ releaseTime k) ∧
  (∀ p k, p ∈ snd (run initialState tr) → k ∈ keystrokes p →
          0 ≤ pressTime k ∧ 0 ≤ releaseTime k).
Proof.
  assert (Hall : ∀ tr', monotone tr' = true →
            ∀ k, k ∈ keystrokeData (final tr') →
                 0 ≤ pressTime k ∧ 0 ≤ releaseTime k).
  { intros tr' Hm k Hk.
    destruct (OffsetInv_final tr' Hm) as [c HO].
    destruct (TimedInv_final tr' Hm) as [c' HT].
    pose proof (oinv_events _ _ HO k Hk).
    destruct (tinv_dwell _ _ HT k Hk) as (? & _). lia. }
  intros Hm. split; [by apply Hall |].
  intros p k Hp Hk.
  destruct (posted_reachable tr p Hp) as (tr1 & tr2 & -> & Heq).
  rewrite Heq in Hk. apply (Hall tr1); [| done].
  by apply monotone_prefix in Hm.
Qed.

Lemma X14_witness :
  monotone sample_completed = true ∧
  ∃ k, keystrokeData (final sample_completed) !! 0%nat = Some k ∧
       pressTime k = 100 ∧ 0 ≤ pressTime k ∧ 0 ≤ releaseTime k.
Proof.
  split; [reflexivity |].
  eexists. split; [reflexivity |]. split; [reflexivity |].
  refine (proj1 (X14_offsets_nonnegative sample_completed eq_refl) _ _).
  apply list_elem_of_lookup. by exists 0%nat.
Defined.
